(** * Team-Heat-Scheduler: the scheduling model of [main.py]

    [generate_schedule] builds a 0/1 linear program with PuLP, hands it to
    CBC with a time limit, and turns the values of the assignment variables
    into a nested schedule (flights, heats, boat -> team number).

    The development embeds
    - the slice of PuLP that the function uses (affine expressions,
      constraints, problems, status codes) in [Module pulp];
    - the function itself, statement by statement, with the three things it
      takes from its surroundings made explicit in [Env]: the global random
      generator, the Streamlit session's time limit, and the CBC solver;
    - the meaning of the model (which assignments satisfy it) and what the
      solver promises about the values it leaves in the variables;
    - [create_html_table], which renders a schedule as one HTML string, and
      what the page shows once the button is pressed.

    Python floats are modelled as rationals ([Q], compared with [==]). *)

From Stdlib Require Import QArith Lqa Ascii.
From stdpp Require Import gmap strings list pretty.

Local Open Scope Q_scope.

#[global] Instance Q_inhabited : Inhabited Q := populate 0.

(** ** Sums of rationals *)

Fixpoint Qsum (l : list Q) : Q :=
  match l with
  | [] => 0
  | q :: l => q + Qsum l
  end.

(** ** The part of PuLP used by [main.py] *)

Module pulp.

(** The two families created by [LpVariable.dicts]:
    [x[t][f][h][b]] and [w[(t1, t2)][f][h]], all of category Binary. *)
Inductive LpVariable : Type :=
| x_ (t f h b : nat)
| w_ (p : nat * nat) (f h : nat).

#[global] Instance LpVariable_eq_dec : EqDecision LpVariable.
Proof. solve_decision. Defined.

(** An affine expression: PuLP keeps a coefficient per variable and a
    constant; the list holds the terms in the order they were added. *)
Record LpAffineExpression : Type := mkExpr {
  terms : list (LpVariable * Q);
  constant : Q
}.

Definition of_var (v : LpVariable) : LpAffineExpression := mkExpr [(v, 1)] 0.
Definition const (q : Q) : LpAffineExpression := mkExpr [] q.
Definition add (e1 e2 : LpAffineExpression) : LpAffineExpression :=
  mkExpr (terms e1 ++ terms e2) (constant e1 + constant e2).
Definition scale (q : Q) (e : LpAffineExpression) : LpAffineExpression :=
  mkExpr ((λ '(v, c), (v, q * c)) <$> terms e) (q * constant e).
Definition sub (e1 e2 : LpAffineExpression) : LpAffineExpression :=
  add e1 (scale (-1) e2).
Definition lpSum (l : list LpAffineExpression) : LpAffineExpression :=
  foldr add (const 0) l.

Inductive LpConstraintSense : Type :=
| LpConstraintLE | LpConstraintEQ | LpConstraintGE.

(** [lhs <= rhs], [lhs == rhs] or [lhs >= rhs]. *)
Record LpConstraint : Type := mkConstraint {
  lhs : LpAffineExpression;
  sense : LpConstraintSense;
  rhs : LpAffineExpression
}.

Inductive LpSense : Type := LpMinimize | LpMaximize.

(** A problem: its name, its sense, the objective and the named
    constraints in the order they were added. *)
Record LpProblem : Type := mkProblem {
  name : string;
  direction : LpSense;
  objective : LpAffineExpression;
  constraints : list (string * LpConstraint)
}.

(** [pulp.LpProblem(name, sense)]: nothing to optimise and no constraint
    yet. *)
Definition new_LpProblem (name : string) (sense : LpSense) : LpProblem :=
  mkProblem name sense (mkExpr [] 0) [].

(** [prob += (e, "Objective")] *)
Definition set_objective (p : LpProblem) (e : LpAffineExpression) : LpProblem :=
  mkProblem (name p) (direction p) e (constraints p).

(** [prob += (c, name)] *)
Definition add_constraint (p : LpProblem) (nc : string * LpConstraint) : LpProblem :=
  mkProblem (name p) (direction p) (objective p) (constraints p ++ [nc]).

(** The status codes [prob.solve] returns and their names in
    [pulp.LpStatus]. *)
Inductive LpStatusCode : Type :=
| LpStatusNotSolved     (*  0 *)
| LpStatusOptimal       (*  1 *)
| LpStatusInfeasible    (* -1 *)
| LpStatusUnbounded     (* -2 *)
| LpStatusUndefined.    (* -3 *)

Definition LpStatus (c : LpStatusCode) : string :=
  match c with
  | LpStatusNotSolved => "Not Solved"
  | LpStatusOptimal => "Optimal"
  | LpStatusInfeasible => "Infeasible"
  | LpStatusUnbounded => "Unbounded"
  | LpStatusUndefined => "Undefined"
  end.

(** *** Meaning of expressions and constraints under an assignment *)

Definition value_of (a : LpVariable → Q) (e : LpAffineExpression) : Q :=
  Qsum ((λ '(v, c), c * a v) <$> terms e) + constant e.

Definition valid (a : LpVariable → Q) (c : LpConstraint) : Prop :=
  match sense c with
  | LpConstraintLE => value_of a (lhs c) <= value_of a (rhs c)
  | LpConstraintEQ => value_of a (lhs c) == value_of a (rhs c)
  | LpConstraintGE => value_of a (rhs c) <= value_of a (lhs c)
  end.

(** [prob.variables()]: the variables of the objective and of the
    constraints. *)
Definition constraint_variables (c : LpConstraint) : list LpVariable :=
  (terms (lhs c)).*1 ++ (terms (rhs c)).*1.
Definition variables (p : LpProblem) : list LpVariable :=
  (terms (objective p)).*1 ++ (nc ← constraints p; constraint_variables nc.2).

(** An assignment satisfies the constraints of [p]. *)
Definition satisfies (p : LpProblem) (a : LpVariable → Q) : Prop :=
  ∀ n c, (n, c) ∈ constraints p → valid a c.

(** Integer-feasible points: every variable is Binary. *)
Definition feasible (p : LpProblem) (a : LpVariable → Q) : Prop :=
  (∀ v, v ∈ variables p → a v == 0 ∨ a v == 1) ∧ satisfies p a.

(** Points of the continuous relaxation: the variables only keep their
    bounds [0 <= v <= 1]. *)
Definition relaxed (p : LpProblem) (a : LpVariable → Q) : Prop :=
  (∀ v, v ∈ variables p → 0 <= a v <= 1) ∧ satisfies p a.

Definition no_worse (d : LpSense) (q1 q2 : Q) : Prop :=
  match d with
  | LpMinimize => q1 <= q2
  | LpMaximize => q2 <= q1
  end.

Definition optimal (p : LpProblem) (a : LpVariable → Q) : Prop :=
  feasible p a ∧
  ∀ a', feasible p a' →
        no_worse (direction p) (value_of a (objective p)) (value_of a' (objective p)).

(** These predicates can be decided by running over the constraints
    and the variables of the problem. *)
#[global] Instance Qle_decision (q1 q2 : Q) : Decision (q1 <= q2).
Proof.
  refine (match Qlt_le_dec q2 q1 with
          | left Hlt => right _
          | right Hle => left Hle
          end).
  by apply Qlt_not_le.
Defined.

#[global] Instance Qeq_decision (q1 q2 : Q) : Decision (q1 == q2) := Qeq_dec q1 q2.

#[global] Instance valid_dec a c : Decision (valid a c).
Proof. unfold valid. destruct (sense c); apply _. Defined.

#[global] Instance satisfies_dec p a : Decision (satisfies p a).
Proof.
  refine (cast_if (decide (Forall (λ nc, valid a nc.2) (constraints p))));
    unfold satisfies; rewrite Forall_forall in *.
  - intros n c Hnc. by apply (f (n, c)).
  - intros Hsat. apply n. intros [n' c] Hnc. by apply (Hsat n' c).
Defined.

#[global] Instance feasible_dec p a : Decision (feasible p a).
Proof.
  refine (cast_if_and
            (decide (Forall (λ v, a v == 0 ∨ a v == 1) (variables p)))
            (decide (satisfies p a)));
    unfold feasible; rewrite ?Forall_forall in *; tauto.
Defined.

#[global] Instance relaxed_dec p a : Decision (relaxed p a).
Proof.
  refine (cast_if_and
            (decide (Forall (λ v, 0 <= a v <= 1) (variables p)))
            (decide (satisfies p a)));
    unfold relaxed; rewrite ?Forall_forall in *; tauto.
Defined.

(** *** What the solver leaves in the variables *)

(** [pulp.value] reads the point [a] from the variables of [p]. *)
Definition reads (p : LpProblem) (value : LpVariable → option Q)
    (a : LpVariable → Q) : Prop :=
  ∀ v, v ∈ variables p → ∃ q, value v = Some q ∧ q == a v.

(** No solution was loaded: a variable has no value, or the 0 that PuLP
    gives to variables missing from the solution file. *)
Definition unset (p : LpProblem) (value : LpVariable → option Q) : Prop :=
  ∀ v, v ∈ variables p →
       match value v with
       | None => True
       | Some q => q == 0
       end.

(** The guarantees behind each status of [PULP_CBC_CMD]:
    - Optimal: the variables hold an integer-feasible point (proved
      optimal, or the incumbent when CBC stopped on the time limit);
    - Not Solved: CBC stopped without an integer solution; the variables
      hold a point of the continuous relaxation (an older PuLP also
      reports an incumbent this way), or nothing was loaded;
    - Infeasible: the problem has no integer-feasible point;
    - Unbounded, Undefined: nothing is promised. *)
Definition solver_contract (p : LpProblem)
    (out : LpStatusCode * (LpVariable → option Q)) : Prop :=
  match out.1 with
  | LpStatusOptimal => ∃ a, feasible p a ∧ reads p out.2 a
  | LpStatusNotSolved => (∃ a, relaxed p a ∧ reads p out.2 a) ∨ unset p out.2
  | LpStatusInfeasible => ¬ ∃ a, feasible p a
  | LpStatusUnbounded | LpStatusUndefined => True
  end.

End pulp.
Import pulp.

Declare Scope lp_scope.
Delimit Scope lp_scope with lp.
Bind Scope lp_scope with LpAffineExpression.
Notation "e1 + e2" := (add e1 e2) : lp_scope.
Notation "e1 - e2" := (sub e1 e2) : lp_scope.
Notation "e1 <== e2" := (mkConstraint e1 LpConstraintLE e2) (at level 70, no associativity).
Notation "e1 === e2" := (mkConstraint e1 LpConstraintEQ e2) (at level 70, no associativity).
Notation "e1 >== e2" := (mkConstraint e1 LpConstraintGE e2) (at level 70, no associativity).

(** ** What [generate_schedule] takes from its surroundings *)

Record Env : Type := mkEnv {
  (** [random_random n] is the float delivered by the [n]-th call of
      [random.random()] made by this invocation. *)
  random_random : nat → Q;
  (** [st.session_state['time_limit']], in seconds *)
  time_limit : Z;
  (** [prob.solve(pulp.PULP_CBC_CMD(msg=True, timeLimit=...))]: the status
      code, and what [pulp.value] reads from each variable afterwards
      ([None] while a variable has no value). *)
  PULP_CBC_CMD : Z → LpProblem → LpStatusCode * (LpVariable → option Q)
}.

(** ** [generate_schedule], lines 9-97 *)

(** [itertools.combinations(l, 2)] *)
Fixpoint combinations2 {A} (l : list A) : list (A * A) :=
  match l with
  | [] => []
  | a :: l' => (pair a <$> l') ++ combinations2 l'
  end.

(** Filling a dictionary with one fresh random float per key, in loop
    order; the state is the number of floats drawn so far. *)
Definition draw {K} `{Countable K} (rnd : nat → Q) (keys : list K)
    (s : nat) : gmap K Q * nat :=
  foldl (λ '(m, s) k, (<[k := rnd s]> m, S s)) (∅, s) keys.

(** [pulp.value(v) == 1] *)
Definition equals_one (v : option Q) : bool :=
  match v with
  | Some q => Qeq_bool q 1
  | None => false
  end.

Section generate_schedule.
Variable E : Env.
Variables num_flights num_boats num_teams num_heats : nat.

(** Indices, lines 14-18 *)
Definition teams : list nat := seq 0 num_teams.
Definition flights : list nat := seq 0 num_flights.
Definition heats : list nat := seq 0 num_heats.
Definition boats : list nat := seq 0 num_boats.
Definition team_pairs : list (nat * nat) := combinations2 teams.

(** Random weights and pair penalties, lines 25-35 *)
Definition random_weights_loop : gmap (nat * nat * nat * nat) Q * nat :=
  draw (random_random E)
    (t ← teams; f ← flights; h ← heats; b ← boats; [(t, f, h, b)]) 0%nat.
Definition random_weights : gmap (nat * nat * nat * nat) Q :=
  random_weights_loop.1.
Definition penalty_w : gmap (nat * nat) Q :=
  (draw (random_random E) team_pairs random_weights_loop.2).1.

(** The sum over boats that the constraints use again and again:
    [pulp.lpSum([x[t][f][h][b] for b in boats])]. *)
Definition boats_of (t f h : nat) : LpAffineExpression :=
  lpSum (b ← boats; [of_var (x_ t f h b)]).

(** Objective, lines 38-43 *)
Definition Objective : LpAffineExpression :=
  (lpSum (t ← teams; f ← flights; h ← heats; b ← boats;
          [scale (random_weights !!! (t, f, h, b)) (of_var (x_ t f h b))])
   + lpSum ('(t1, t2) ← team_pairs;
            [scale (penalty_w !!! (t1, t2))
               (const 1 - lpSum (f ← flights; h ← heats;
                                 [of_var (w_ (t1, t2) f h)]))]))%lp.

(** 1. Each boat in each flight and heat is assigned to at most one team,
    lines 48-51 *)
Definition Boat_constraints : list (string * LpConstraint) :=
  f ← flights; h ← heats; b ← boats;
  [("Boat_" +:+ pretty b +:+ "_Flight_" +:+ pretty f +:+ "_Heat_" +:+ pretty h,
    lpSum (t ← teams; [of_var (x_ t f h b)]) <== const 1)].

(** 2. Each team in each flight and heat is assigned to at most one boat,
    lines 54-57 *)
Definition Team_constraints : list (string * LpConstraint) :=
  t ← teams; f ← flights; h ← heats;
  [("Team_" +:+ pretty t +:+ "_Flight_" +:+ pretty f +:+ "_Heat_" +:+ pretty h,
    boats_of t f h <== const 1)].

(** 3. Define w variables to indicate if two teams are racing together,
    lines 61-67 *)
Definition W_suffix (t1 t2 f h : nat) : string :=
  pretty t1 +:+ "_" +:+ pretty t2 +:+ "_Flight_" +:+ pretty f
    +:+ "_Heat_" +:+ pretty h.
Definition W1 (t1 t2 f h : nat) : LpConstraint :=
  of_var (w_ (t1, t2) f h) <== boats_of t1 f h.
Definition W2 (t1 t2 f h : nat) : LpConstraint :=
  of_var (w_ (t1, t2) f h) <== boats_of t2 f h.
Definition W3 (t1 t2 f h : nat) : LpConstraint :=
  of_var (w_ (t1, t2) f h) >== (boats_of t1 f h + boats_of t2 f h - const 1)%lp.
Definition W_constraints : list (string * LpConstraint) :=
  '(t1, t2) ← team_pairs; f ← flights; h ← heats;
  [("W1_" +:+ W_suffix t1 t2 f h, W1 t1 t2 f h);
   ("W2_" +:+ W_suffix t1 t2 f h, W2 t1 t2 f h);
   ("W3_" +:+ W_suffix t1 t2 f h, W3 t1 t2 f h)].

(** 4. Every team sails once per flight, lines 70-72 *)
Definition Participation_constraints : list (string * LpConstraint) :=
  t ← teams; f ← flights;
  [("Team_" +:+ pretty t +:+ "_Flight_" +:+ pretty f +:+ "_Participation",
    lpSum (h ← heats; b ← boats; [of_var (x_ t f h b)]) === const 1)].

(** The problem as it stands when [prob.solve] is called, lines 11-72:
    created, given its objective, and extended by one constraint per turn
    of the four loops. *)
Definition prob : LpProblem :=
  let prob := new_LpProblem "Race_Scheduling" LpMinimize in
  let prob := set_objective prob Objective in
  let prob := foldl add_constraint prob Boat_constraints in
  let prob := foldl add_constraint prob Team_constraints in
  let prob := foldl add_constraint prob W_constraints in
  foldl add_constraint prob Participation_constraints.

(** Extracting the schedule, lines 85-95: the dictionary of one heat *)
Definition heat_schedule (value : LpVariable → option Q) (f h : nat)
    : gmap nat nat :=
  foldl (λ heat_schedule b,
           foldl (λ heat_schedule t,
                    if equals_one (value (x_ t f h b))
                    then <[b := (t + 1)%nat]> heat_schedule
                    else heat_schedule)
                 heat_schedule teams)
        ∅ boats.

Definition extract_schedule (value : LpVariable → option Q)
    : list (list (gmap nat nat)) :=
  (λ f, (λ h, heat_schedule value f h) <$> heats) <$> flights.

(** Lines 76-97: solve, test the status, extract. The [st.warning] that
    accompanies [None] only writes to the page. *)
Definition generate_schedule : option (list (list (gmap nat nat))) :=
  let '(result, value) := PULP_CBC_CMD E (time_limit E) prob in
  if bool_decide (LpStatus result ∈ ["Infeasible"; "Unbounded"; "Undefined"])
  then None
  else Some (extract_schedule value).

End generate_schedule.

(** ** [create_html_table], lines 99-116 *)

(** [enumerate(l)] *)
Definition enumerate {A} (l : list A) : list (nat * A) := imap pair l.

(** The table is one string, extended piece by piece; [race_number] is
    computed and not used; [num_heats] is not used. *)
Definition create_html_table (schedule : list (list (gmap nat nat)))
    (num_boats num_heats : nat) : string :=
  let html_table := "<table border='1' cellpadding='10'>" in
  let html_table :=
    foldl (λ html_table '(flight_index, flight),
      let html_table :=
        html_table +:+ ("<tr><th colspan='" +:+ pretty (num_boats + 1)%nat
                        +:+ "'>Flight " +:+ pretty (flight_index + 1)%nat
                        +:+ "</th></tr>") in
      foldl (λ html_table '(heat_index, heat),
        let race_number := (flight_index * length flight + heat_index + 1)%nat in
        let html_table :=
          html_table +:+ ("<tr><td>Heat " +:+ pretty (heat_index + 1)%nat +:+ "</td>") in
        let html_table :=
          foldl (λ html_table boat,
                   html_table +:+ ("<td>Boat " +:+ pretty (boat + 1)%nat +:+ "</td>"))
                html_table (seq 0 num_boats) in
        let html_table := html_table +:+ "</tr><tr><td></td>" in
        let html_table :=
          foldl (λ html_table boat,
                   let team := match (heat : gmap nat nat) !! boat with
                               | Some team => pretty team
                               | None => ""
                               end in
                   html_table +:+ ("<td>" +:+ team +:+ "</td>"))
                html_table (seq 0 num_boats) in
        html_table +:+ "</tr>")
      html_table (enumerate flight))
    html_table (enumerate schedule) in
  html_table +:+ "</table>".

(** ** The page after the button is pressed, lines 141-150 *)

(** The elements the program writes to the page. *)
Inductive Element : Type :=
| st_warning (body : string)
| st_write (body : string)
| st_markdown (body : string).

(** The body of [if st.button("Generate Schedule")]: the spinner only shows
    while [generate_schedule] runs; the warning is the one of line 81, which
    [generate_schedule] writes just before it returns [None]. *)
Definition Generate_Schedule (E : Env)
    (num_flights num_boats num_teams num_heats : nat) : list Element :=
  match generate_schedule E num_flights num_boats num_teams num_heats with
  | Some schedule =>
      [st_write "### Generated Schedule";
       st_markdown (create_html_table schedule num_boats num_heats)]
  | None =>
      [st_warning "No feasible solution found.";
       st_write "No feasible schedule could be generated with the given parameters."]
  end.

(** ** Reading the model and the schedule *)

(** What the four constraint families say about an assignment [a], with the
    sums written out. *)
Section model.
Variables (num_flights num_boats num_teams num_heats : nat).
Variable a : LpVariable → Q.

(** [occ t f h]: how often team [t] sits in a boat of heat [h], flight [f]. *)
Definition occ (t f h : nat) : Q :=
  Qsum ((λ b, a (x_ t f h b)) <$> seq 0 num_boats).
(** [load f h b]: how many teams sit in boat [b] of heat [h], flight [f]. *)
Definition load (f h b : nat) : Q :=
  Qsum ((λ t, a (x_ t f h b)) <$> seq 0 num_teams).
(** [sailed t f]: how often team [t] sails in flight [f]. *)
Definition sailed (t f : nat) : Q :=
  Qsum ((λ h, occ t f h) <$> seq 0 num_heats).

Record model_holds : Prop := {
  Boat_holds : ∀ f h b,
    (f < num_flights)%nat → (h < num_heats)%nat → (b < num_boats)%nat → load f h b <= 1;
  Team_holds : ∀ t f h,
    (t < num_teams)%nat → (f < num_flights)%nat → (h < num_heats)%nat → occ t f h <= 1;
  W1_holds : ∀ t1 t2 f h,
    (t1 < t2 < num_teams)%nat → (f < num_flights)%nat → (h < num_heats)%nat →
    a (w_ (t1, t2) f h) <= occ t1 f h;
  W2_holds : ∀ t1 t2 f h,
    (t1 < t2 < num_teams)%nat → (f < num_flights)%nat → (h < num_heats)%nat →
    a (w_ (t1, t2) f h) <= occ t2 f h;
  W3_holds : ∀ t1 t2 f h,
    (t1 < t2 < num_teams)%nat → (f < num_flights)%nat → (h < num_heats)%nat →
    occ t1 f h + occ t2 f h - 1 <= a (w_ (t1, t2) f h);
  Participation_holds : ∀ t f,
    (t < num_teams)%nat → (f < num_flights)%nat → sailed t f == 1
}.
End model.

(** Team number [c] stands under boat [b] in heat [h] of flight [f]. *)
Definition appears (schedule : list (list (gmap nat nat))) (f h b c : nat) : Prop :=
  ∃ flight_schedule heat_schedule,
    schedule !! f = Some flight_schedule ∧
    flight_schedule !! h = Some heat_schedule ∧
    heat_schedule !! b = Some c.

(** The objective as the specification writes it: the weighted sum of all
    assignment variables, plus for every pair of teams its penalty times
    (1 - the sum of its pairing indicators over all flights and heats). *)
Definition objective_formula (E : Env) (num_flights num_boats num_teams num_heats : nat)
    (a : LpVariable → Q) : Q :=
  Qsum ((λ '(t, f, h, b),
           (random_weights E num_flights num_boats num_teams num_heats !!! (t, f, h, b))
           * a (x_ t f h b))
        <$> (t ← seq 0 num_teams; f ← seq 0 num_flights;
             h ← seq 0 num_heats; b ← seq 0 num_boats; [(t, f, h, b)]))
  + Qsum ((λ p,
             (penalty_w E num_flights num_boats num_teams num_heats !!! p)
             * (1 - Qsum ((λ '(f, h), a (w_ p f h))
                          <$> (f ← seq 0 num_flights; h ← seq 0 num_heats; [(f, h)]))))
          <$> combinations2 (seq 0 num_teams)).

(** The team the extraction loop leaves under boat [b]: the last of the
    teams [0 .. n-1] whose variable reads 1 (later teams overwrite earlier
    ones in [heat_schedule[b] = t + 1]). *)
Fixpoint last_team (value : LpVariable → option Q) (f h b n : nat) : option nat :=
  match n with
  | O => None
  | S n' => if equals_one (value (x_ n' f h b)) then Some n'
            else last_team value f h b n'
  end.

(** Expressions that mention assignment variables only. *)
Definition x_only (e : LpAffineExpression) : Prop :=
  ∀ v c, (v, c) ∈ terms e → ∃ t f h b, v = x_ t f h b.

(** An assignment of the model with [num_boats] boats and [num_heats]
    heats, read in a larger model: every team keeps its boat, the indicators
    keep their values, and the additional boats and heats stay empty. *)
Definition keep_within (num_flights num_boats num_teams num_heats : nat)
    (a : LpVariable → Q) (v : LpVariable) : Q :=
  match v with
  | x_ t f h b =>
      if bool_decide (t < num_teams ∧ f < num_flights ∧ h < num_heats ∧ b < num_boats)%nat
      then a v else 0
  | w_ (t1, t2) f h =>
      if bool_decide (t1 < t2 < num_teams ∧ f < num_flights ∧ h < num_heats)%nat
      then a v else 0
  end.

(** The boats filled heat by heat: team [t] sails in heat [t / num_boats],
    boat [t mod num_boats], of every flight, and the indicator of a pair is 1
    in the heat that both teams share. *)
Definition packed (num_boats : nat) (v : LpVariable) : Q :=
  match v with
  | x_ t f h b =>
      if bool_decide (h = t / num_boats ∧ b = t mod num_boats)%nat then 1 else 0
  | w_ (t1, t2) f h =>
      if bool_decide (h = t1 / num_boats ∧ h = t2 / num_boats)%nat then 1 else 0
  end.

(** Reading the strings the program builds: decimal digits, strings of
    digits, and strings that do not go on with a digit. *)
Definition is_digit (c : ascii) : bool :=
  bool_decide (c ∈ ["0"; "1"; "2"; "3"; "4"; "5"; "6"; "7"; "8"; "9"]%char).

Fixpoint digits (s : string) : bool :=
  match s with
  | EmptyString => true
  | String c s' => is_digit c && digits s'
  end.

Definition no_digit_ahead (s : string) : bool :=
  match s with
  | EmptyString => true
  | String c _ => negb (is_digit c)
  end.

(** The pieces of the table, written out: the strings of a list of items
    one after the other, the cell of a boat, the two rows of a heat and the
    rows of a flight. *)
Fixpoint join_map {A} (g : A → string) (l : list A) : string :=
  match l with
  | [] => ""
  | x :: l => g x +:+ join_map g l
  end.

Definition team_cell (heat : gmap nat nat) (boat : nat) : string :=
  "<td>" +:+ match heat !! boat with
             | Some team => pretty team
             | None => ""
             end +:+ "</td>".

Definition heat_head (num_boats heat_index : nat) : string :=
  "<tr><td>Heat " +:+ pretty (heat_index + 1)%nat +:+ "</td>"
  +:+ join_map (λ boat, "<td>Boat " +:+ pretty (boat + 1)%nat +:+ "</td>")
        (seq 0 num_boats)
  +:+ "</tr><tr><td></td>".

Definition heat_rows (num_boats : nat) (ih : nat * gmap nat nat) : string :=
  heat_head num_boats ih.1 +:+ join_map (team_cell ih.2) (seq 0 num_boats) +:+ "</tr>".

Definition flight_head (num_boats flight_index : nat) : string :=
  "<tr><th colspan='" +:+ pretty (num_boats + 1)%nat
  +:+ "'>Flight " +:+ pretty (flight_index + 1)%nat +:+ "</th></tr>".

Definition flight_rows (num_boats : nat) (iflight : nat * list (gmap nat nat)) : string :=
  flight_head num_boats iflight.1
  +:+ join_map (heat_rows num_boats) (enumerate iflight.2).

(** Two dictionaries that agree on the boats [0 .. num_boats - 1]. *)
Definition same_boats (num_boats : nat) (heat heat' : gmap nat nat) : Prop :=
  ∀ b, (b < num_boats)%nat → heat !! b = heat' !! b.

(** A string that does not go on with the first row of a heat. *)
Definition no_heat_ahead (s : string) : bool := negb (String.prefix "<tr><td>" s).

(** Decidable statements about concrete runs are settled by evaluation. *)
Ltac by_computation := apply (bool_decide_unpack _); vm_compute; exact I.

(** Telling two strings apart by their first characters. *)
Ltac differ H := exfalso; unfold String.app in H; simpl in H; discriminate H.

(** [pulp.value(v)] is a number, and that number is 1. *)
Definition evaluates_to_1 (v : option Q) : Prop := ∃ q, v = Some q ∧ q == 1.

(** The number [pulp.value(v)] gives, with 0 for a variable that has no
    value. *)
Definition value_or_0 (value : LpVariable → option Q) (v : LpVariable) : Q :=
  default 0 (value v).

(** The values that [pulp.value] reads keep the team rows of lines 54-57 and
    the lower bound of the assignment variables up to a tolerance [tol].
    This is what holds of the numbers CBC writes, whether they are an
    integral point, a point of the relaxation, or its print-out rounded to
    eight decimals, and of variables left without value. *)
Definition team_rows_within (tol : Q)
    (num_flights num_boats num_teams num_heats : nat)
    (value : LpVariable → option Q) : Prop :=
  ∀ t f h,
    (t < num_teams)%nat → (f < num_flights)%nat → (h < num_heats)%nat →
    (∀ b, (b < num_boats)%nat → - tol <= value_or_0 value (x_ t f h b)) ∧
    occ num_boats (value_or_0 value) t f h <= 1 + tol.

(** CBC ends the solve with status Infeasible when the continuous
    relaxation, which it solves first, has no point. *)
Definition reports_infeasible_relaxation (p : LpProblem)
    (out : LpStatusCode * (LpVariable → option Q)) : Prop :=
  (¬ ∃ a, relaxed p a) → out.1 = LpStatusInfeasible.

(** ** Concrete runs *)

(** CBC stops on the time limit before it has found any integer solution:
    PuLP reports status 0 (Not Solved) and the variables have no value. *)
Definition stopped_without_solution
    : Z → LpProblem → LpStatusCode * (LpVariable → option Q) :=
  λ _ _, (LpStatusNotSolved, λ _, None).

Definition run_without_solution : Env :=
  {| random_random := λ n, 1 / (inject_Z (Z.of_nat n) + 2);
     time_limit := 1%Z;
     PULP_CBC_CMD := stopped_without_solution |}.

(** Team [t] sails in boat [t] of the first heat of every flight, and all
    pairs of teams meet there. *)
Definition diagonal (v : LpVariable) : Q :=
  match v with
  | x_ t f h b => if bool_decide (t = b ∧ h = 0%nat) then 1 else 0
  | w_ _ f h => if bool_decide (h = 0%nat) then 1 else 0
  end.

Definition solved_diagonal
    : Z → LpProblem → LpStatusCode * (LpVariable → option Q) :=
  λ _ _, (LpStatusOptimal, λ v, Some (diagonal v)).

Definition run_diagonal : Env :=
  {| random_random := λ n, inject_Z (Z.of_nat (3 * n) `mod` 7) / 10;
     time_limit := 300%Z;
     PULP_CBC_CMD := solved_diagonal |}.

(** CBC stops on the time limit with only the relaxation solved: PuLP
    reports Not Solved and the variables hold the numbers of the solution
    file, printed with eight decimals. One flight, three boats, three teams,
    one heat: team 0 sits in boat 0, teams 1 and 2 share boats 1 and 2. *)
Definition printed (v : LpVariable) : option Q :=
  match v with
  | x_ 0 0 0 0 => Some 1
  | x_ 1 0 0 1 => Some (66666667 # 100000000)
  | x_ 1 0 0 2 => Some (33333334 # 100000000)
  | x_ 2 0 0 1 => Some (33333333 # 100000000)
  | x_ 2 0 0 2 => Some (66666667 # 100000000)
  | w_ (1, 2)%nat 0 0 => Some (33333333 # 100000000)
  | _ => Some 0
  end.

Definition run_printed : Env :=
  {| random_random := λ n, 1 / (inject_Z (Z.of_nat n) + 2);
     time_limit := 1%Z;
     PULP_CBC_CMD := λ _ _, (LpStatusNotSolved, printed) |}.

(** CBC finds the relaxation without a point and reports Infeasible. *)
Definition run_infeasible : Env :=
  {| random_random := λ n, 1 / (inject_Z (Z.of_nat n) + 2);
     time_limit := 1%Z;
     PULP_CBC_CMD := λ _ _, (LpStatusInfeasible, λ _, None) |}.

(** ** Sums of rationals: the arithmetic behind the constraints *)

Section Qsum.
Context {A : Type}.
Implicit Types (f g : A → Q) (l : list A).

Lemma Qsum_app (l1 l2 : list Q) : Qsum (l1 ++ l2) == Qsum l1 + Qsum l2.
Proof. induction l1 as [|q l1 IH]; csimpl; [ring | rewrite IH; ring]. Qed.

Lemma Qsum_fmap_ext f g l :
  (∀ i, i ∈ l → f i == g i) → Qsum (f <$> l) == Qsum (g <$> l).
Proof.
  induction l as [|i l IH]; intros Hfg; csimpl; [reflexivity|].
  rewrite (Hfg i), IH; [reflexivity| |left].
  intros j Hj. apply Hfg. by right.
Qed.

Lemma Qsum_fmap_le f g l :
  (∀ i, i ∈ l → f i <= g i) → Qsum (f <$> l) <= Qsum (g <$> l).
Proof.
  induction l as [|i l IH]; intros Hfg; csimpl; [lra|].
  assert (f i <= g i) by (apply Hfg; left).
  assert (Qsum (f <$> l) <= Qsum (g <$> l)) by (apply IH; intros j Hj; apply Hfg; by right).
  lra.
Qed.

Lemma Qsum_fmap_const (c : Q) l :
  Qsum ((λ _, c) <$> l) == inject_Z (Z.of_nat (length l)) * c.
Proof.
  induction l as [|i l IH]; [csimpl; ring|].
  csimpl.
  rewrite IH, Nat2Z.inj_succ, <- Z.add_1_r, inject_Z_plus. csimpl. ring.
Qed.

Lemma Qsum_fmap_plus f g l :
  Qsum ((λ i, f i + g i) <$> l) == Qsum (f <$> l) + Qsum (g <$> l).
Proof. induction l as [|i l IH]; csimpl; [ring | rewrite IH; ring]. Qed.

Lemma Qsum_fmap_scale (c : Q) f l :
  Qsum ((λ i, c * f i) <$> l) == c * Qsum (f <$> l).
Proof. induction l as [|i l IH]; csimpl; [ring | rewrite IH; ring]. Qed.

Lemma Qsum_nonneg f l : (∀ i, i ∈ l → 0 <= f i) → 0 <= Qsum (f <$> l).
Proof.
  intros Hf. pose proof (Qsum_fmap_le (λ _, 0) f l Hf) as Hle.
  rewrite Qsum_fmap_const in Hle. lra.
Qed.

Lemma Qsum_elem_le f l i :
  (∀ k, k ∈ l → 0 <= f k) → i ∈ l → f i <= Qsum (f <$> l).
Proof.
  induction l as [|k l IH]; intros Hf Hi; [by apply elem_of_nil in Hi|].
  assert (0 <= f k) by (apply Hf; left).
  assert (0 <= Qsum (f <$> l)) by (apply Qsum_nonneg; intros; apply Hf; by right).
  csimpl. apply elem_of_cons in Hi as [->|Hi]; [lra|].
  assert (f i <= Qsum (f <$> l)) by (apply IH; [intros; apply Hf; by right|done]).
  lra.
Qed.

(** Two different entries of a duplicate-free list both count. *)
Lemma Qsum_two f l i j :
  NoDup l → (∀ k, k ∈ l → 0 <= f k) → i ∈ l → j ∈ l → i ≠ j →
  f i + f j <= Qsum (f <$> l).
Proof.
  induction l as [|k l IH]; intros Hnd Hf Hi Hj Hij; [by apply elem_of_nil in Hi|].
  apply NoDup_cons in Hnd as [Hk Hnd].
  assert (Hf' : ∀ k', k' ∈ l → 0 <= f k') by (intros; apply Hf; by right).
  assert (0 <= f k) by (apply Hf; left).
  csimpl. apply elem_of_cons in Hi as [->|Hi]; apply elem_of_cons in Hj as [->|Hj].
  - done.
  - pose proof (Qsum_elem_le f l j Hf' Hj). lra.
  - pose proof (Qsum_elem_le f l i Hf' Hi). lra.
  - pose proof (IH Hnd Hf' Hi Hj Hij). lra.
Qed.

(** A sum that is positive has a positive entry. *)
Lemma Qsum_pos_elem f l : 0 < Qsum (f <$> l) → ∃ i, i ∈ l ∧ 0 < f i.
Proof.
  induction l as [|k l IH]; csimpl; [lra|]. intros Hpos.
  destruct (Qlt_le_dec 0 (f k)) as [Hk|Hk].
  - exists k. split; [left|done].
  - destruct IH as (i & Hi & Hfi); [lra|]. exists i. split; [by right|done].
Qed.

Lemma Qsum_bind {B} (g : B → list Q) (l : list B) :
  Qsum (l ≫= g) == Qsum ((λ i, Qsum (g i)) <$> l).
Proof.
  induction l as [|i l IH]; [reflexivity|].
  rewrite bind_cons, Qsum_app, IH. reflexivity.
Qed.
End Qsum.

(** Exchanging the two sums of a rectangular table. *)
Lemma Qsum_swap {A B} (F : A → B → Q) (l1 : list A) (l2 : list B) :
  Qsum ((λ i, Qsum ((λ j, F i j) <$> l2)) <$> l1)
  == Qsum ((λ j, Qsum ((λ i, F i j) <$> l1)) <$> l2).
Proof.
  induction l1 as [|i l1 IH].
  - csimpl. rewrite (Qsum_fmap_const 0). ring.
  - csimpl.
    rewrite IH, <- Qsum_fmap_plus. apply Qsum_fmap_ext. intros j _. reflexivity.
Qed.

(** ** Evaluating the expressions PuLP builds *)

Section value_of.
Variable a : LpVariable → Q.

Lemma value_of_of_var v : value_of a (of_var v) == a v.
Proof. unfold value_of. simpl. ring. Qed.

Lemma value_of_const q : value_of a (const q) == q.
Proof. unfold value_of. simpl. ring. Qed.

Lemma value_of_add e1 e2 : value_of a (e1 + e2)%lp == value_of a e1 + value_of a e2.
Proof. unfold value_of. simpl. rewrite fmap_app, Qsum_app. ring. Qed.

Lemma value_of_scale q e : value_of a (scale q e) == q * value_of a e.
Proof.
  unfold value_of. simpl. rewrite <- list_fmap_compose.
  rewrite (Qsum_fmap_ext _ (λ vc, q * (let '(v, c) := vc in c * a v))).
  - rewrite Qsum_fmap_scale. ring.
  - intros [v c] _. simpl. ring.
Qed.

Lemma value_of_sub e1 e2 : value_of a (e1 - e2)%lp == value_of a e1 - value_of a e2.
Proof. unfold sub. rewrite value_of_add, value_of_scale. ring. Qed.

Lemma value_of_lpSum l : value_of a (lpSum l) == Qsum (value_of a <$> l).
Proof.
  induction l as [|e l IH]; csimpl; [apply value_of_const|].
  rewrite value_of_add, IH. reflexivity.
Qed.

(** A list comprehension over one index. *)
Lemma value_of_lpSum_for {A} (g : A → LpAffineExpression) (l : list A) :
  value_of a (lpSum (i ← l; [g i])) == Qsum ((λ i, value_of a (g i)) <$> l).
Proof.
  rewrite value_of_lpSum. induction l as [|i l IH]; csimpl; [reflexivity|].
  rewrite IH. reflexivity.
Qed.

(** A list comprehension over two nested indices. *)
Lemma value_of_lpSum_for2 {A B} (g : A → B → LpAffineExpression)
    (l : list A) (k : list B) :
  value_of a (lpSum (i ← l; j ← k; [g i j]))
  == Qsum ((λ i, Qsum ((λ j, value_of a (g i j)) <$> k)) <$> l).
Proof.
  rewrite value_of_lpSum. induction l as [|i l IH]; csimpl; [reflexivity|].
  rewrite fmap_app, Qsum_app, IH, <- value_of_lpSum, value_of_lpSum_for. reflexivity.
Qed.
End value_of.

(** ** Building the problem *)

Lemma constraints_foldl_add p l :
  constraints (foldl add_constraint p l) = constraints p ++ l.
Proof.
  revert p. induction l as [|nc l IH]; intros p; simpl; [by rewrite app_nil_r|].
  rewrite IH. simpl. by rewrite <- app_assoc.
Qed.

Lemma objective_foldl_add p l : objective (foldl add_constraint p l) = objective p.
Proof. revert p. induction l as [|nc l IH]; intros p; simpl; [done|by rewrite IH]. Qed.

Lemma direction_foldl_add p l : direction (foldl add_constraint p l) = direction p.
Proof. revert p. induction l as [|nc l IH]; intros p; simpl; [done|by rewrite IH]. Qed.

Lemma constraints_prob E num_flights num_boats num_teams num_heats :
  constraints (prob E num_flights num_boats num_teams num_heats)
  = Boat_constraints num_flights num_boats num_teams num_heats
    ++ Team_constraints num_flights num_boats num_teams num_heats
    ++ W_constraints num_flights num_boats num_teams num_heats
    ++ Participation_constraints num_flights num_boats num_teams num_heats.
Proof. unfold prob. rewrite !constraints_foldl_add. simpl. by rewrite <- !app_assoc. Qed.

Lemma objective_prob E num_flights num_boats num_teams num_heats :
  objective (prob E num_flights num_boats num_teams num_heats)
  = Objective E num_flights num_boats num_teams num_heats.
Proof. unfold prob. by rewrite !objective_foldl_add. Qed.

Lemma direction_prob E num_flights num_boats num_teams num_heats :
  direction (prob E num_flights num_boats num_teams num_heats) = LpMinimize.
Proof. unfold prob. by rewrite !direction_foldl_add. Qed.

(** ** The index space *)

Lemma elem_of_combinations2_seq s n t1 t2 :
  (t1, t2) ∈ combinations2 (seq s n) ↔ (s ≤ t1 < t2 ∧ t2 < s + n)%nat.
Proof.
  revert s. induction n as [|n IH]; intros s; csimpl.
  - rewrite elem_of_nil. lia.
  - rewrite elem_of_app, list_elem_of_fmap, IH. split.
    + intros [(t & [= -> ->] & Ht)|?]; [apply elem_of_seq in Ht|]; lia.
    + intros Ht. destruct (decide (t1 = s)) as [->|]; [left|right; lia].
      exists t2. split; [done|]. apply elem_of_seq. lia.
Qed.

Lemma elem_of_team_pairs num_teams t1 t2 :
  (t1, t2) ∈ team_pairs num_teams ↔ (t1 < t2 < num_teams)%nat.
Proof. unfold team_pairs, teams. rewrite elem_of_combinations2_seq. lia. Qed.

Lemma NoDup_combinations2 {A} (l : list A) : NoDup l → NoDup (combinations2 l).
Proof.
  induction 1 as [|a l Ha Hl IH]; csimpl; [constructor|].
  apply NoDup_app. split_and!; [|  |done].
  - apply NoDup_fmap_2; [|done]. by intros ?? [=].
  - intros [a1 a2] (a' & [= -> ->] & Ha')%list_elem_of_fmap Hin.
    apply Ha. clear -Hin. induction l as [|b l IH]; csimpl in *.
    + by apply elem_of_nil in Hin.
    + apply elem_of_app in Hin as [(? & [= -> ->] & ?)%list_elem_of_fmap|Hin];
        [left|right; auto].
Qed.

Lemma length_combinations2_seq s n :
  (2 * length (combinations2 (seq s n)) = n * (n - 1))%nat.
Proof.
  revert s. induction n as [|n IH]; intros s; csimpl; [done|].
  rewrite length_app, length_fmap, length_seq.
  specialize (IH (S s)). destruct n as [|m]; [simpl in *; lia|].
  replace (S m - 1)%nat with m in IH by lia.
  replace (S (S m) - 1)%nat with (S m) by lia. nia.
Qed.

(** ** What the constraints of the model mean *)

Lemma or_iff_both (A B C D : Prop) : (A ↔ B) → (C ↔ D) → (A ∨ C ↔ B ∨ D).
Proof. tauto. Qed.

Section constraints.
Variable E : Env.
Variables num_flights num_boats num_teams num_heats : nat.
Variable a : LpVariable → Q.


Lemma value_of_boats_of t f h : value_of a (boats_of num_boats t f h) == occ num_boats a t f h.
Proof.
  unfold boats_of, occ, boats. rewrite value_of_lpSum_for.
  apply Qsum_fmap_ext. intros b _. apply value_of_of_var.
Qed.

Lemma valid_Boat f h b :
  valid a (lpSum (t ← teams num_teams; [of_var (x_ t f h b)]) <== const 1)
  ↔ load num_teams a f h b <= 1.
Proof.
  unfold valid, load, teams. simpl. rewrite value_of_lpSum_for, value_of_const.
  rewrite (Qsum_fmap_ext _ (λ t, a (x_ t f h b))); [done|].
  intros t _. apply value_of_of_var.
Qed.

Lemma valid_Team t f h :
  valid a (boats_of num_boats t f h <== const 1) ↔ occ num_boats a t f h <= 1.
Proof. unfold valid. simpl. by rewrite value_of_boats_of, value_of_const. Qed.

Lemma valid_W1 t1 t2 f h :
  valid a (W1 num_boats t1 t2 f h) ↔ a (w_ (t1, t2) f h) <= occ num_boats a t1 f h.
Proof. unfold valid. simpl. by rewrite value_of_boats_of, value_of_of_var. Qed.

Lemma valid_W2 t1 t2 f h :
  valid a (W2 num_boats t1 t2 f h) ↔ a (w_ (t1, t2) f h) <= occ num_boats a t2 f h.
Proof. unfold valid. simpl. by rewrite value_of_boats_of, value_of_of_var. Qed.

Lemma valid_W3 t1 t2 f h :
  valid a (W3 num_boats t1 t2 f h)
  ↔ occ num_boats a t1 f h + occ num_boats a t2 f h - 1 <= a (w_ (t1, t2) f h).
Proof.
  unfold valid. simpl.
  by rewrite value_of_sub, value_of_add, !value_of_boats_of, value_of_const,
    value_of_of_var.
Qed.

Lemma valid_Participation t f :
  valid a (lpSum (h ← heats num_heats; b ← boats num_boats; [of_var (x_ t f h b)])
           === const 1)
  ↔ sailed num_boats num_heats a t f == 1.
Proof.
  unfold valid, sailed, occ, heats, boats. simpl.
  rewrite value_of_lpSum_for2, value_of_const.
  rewrite (Qsum_fmap_ext _ (λ h, Qsum ((λ b, a (x_ t f h b)) <$> seq 0 num_boats)));
    [done|].
  intros h _. apply Qsum_fmap_ext. intros b _. apply value_of_of_var.
Qed.

(** The constraints of the problem, family by family. *)
Lemma elem_of_constraints nc :
  nc ∈ constraints (prob E num_flights num_boats num_teams num_heats) ↔
  (∃ f h b, (f < num_flights ∧ h < num_heats ∧ b < num_boats)%nat ∧
     nc = ("Boat_" +:+ pretty b +:+ "_Flight_" +:+ pretty f +:+ "_Heat_" +:+ pretty h,
           lpSum (t ← teams num_teams; [of_var (x_ t f h b)]) <== const 1)) ∨
  (∃ t f h, (t < num_teams ∧ f < num_flights ∧ h < num_heats)%nat ∧
     nc = ("Team_" +:+ pretty t +:+ "_Flight_" +:+ pretty f +:+ "_Heat_" +:+ pretty h,
           boats_of num_boats t f h <== const 1)) ∨
  (∃ t1 t2 f h, (t1 < t2 < num_teams ∧ f < num_flights ∧ h < num_heats)%nat ∧
     (nc = ("W1_" +:+ W_suffix t1 t2 f h, W1 num_boats t1 t2 f h) ∨
      nc = ("W2_" +:+ W_suffix t1 t2 f h, W2 num_boats t1 t2 f h) ∨
      nc = ("W3_" +:+ W_suffix t1 t2 f h, W3 num_boats t1 t2 f h))) ∨
  (∃ t f, (t < num_teams ∧ f < num_flights)%nat ∧
     nc = ("Team_" +:+ pretty t +:+ "_Flight_" +:+ pretty f +:+ "_Participation",
           lpSum (h ← heats num_heats; b ← boats num_boats; [of_var (x_ t f h b)])
           === const 1)).
Proof.
  rewrite constraints_prob, !elem_of_app.
  unfold Boat_constraints, Team_constraints, W_constraints,
    Participation_constraints, flights, heats, boats.
  fold (teams num_teams) (heats num_heats) (boats num_boats).
  apply or_iff_both; [|apply or_iff_both; [|apply or_iff_both]].
  - split.
    + intros (f & (h & (b & ->%list_elem_of_singleton & Hb%elem_of_seq)%list_elem_of_bind
                    & Hh%elem_of_seq)%list_elem_of_bind & Hf%elem_of_seq)%list_elem_of_bind.
      exists f, h, b. split; [lia|done].
    + intros (f & h & b & (Hf & Hh & Hb) & ->).
      apply list_elem_of_bind. exists f. split; [|apply elem_of_seq; lia].
      apply list_elem_of_bind. exists h. split; [|apply elem_of_seq; lia].
      apply list_elem_of_bind. exists b. split; [|apply elem_of_seq; lia].
      by apply list_elem_of_singleton.
  - split.
    + intros (t & (f & (h & ->%list_elem_of_singleton & Hh%elem_of_seq)%list_elem_of_bind
                    & Hf%elem_of_seq)%list_elem_of_bind & Ht%elem_of_seq)%list_elem_of_bind.
      exists t, f, h. split; [lia|done].
    + intros (t & f & h & (Ht & Hf & Hh) & ->).
      apply list_elem_of_bind. exists t. split; [|apply elem_of_seq; lia].
      apply list_elem_of_bind. exists f. split; [|apply elem_of_seq; lia].
      apply list_elem_of_bind. exists h. split; [|apply elem_of_seq; lia].
      by apply list_elem_of_singleton.
  - split.
    + intros ([t1 t2] & (f & (h & Hnc & Hh%elem_of_seq)%list_elem_of_bind
                    & Hf%elem_of_seq)%list_elem_of_bind & Hp%elem_of_team_pairs)%list_elem_of_bind.
      exists t1, t2, f, h. split; [lia|].
      rewrite !elem_of_cons, elem_of_nil in Hnc. tauto.
    + intros (t1 & t2 & f & h & (Ht & Hf & Hh) & Hnc).
      apply list_elem_of_bind. exists (t1, t2). split; [|by apply elem_of_team_pairs].
      apply list_elem_of_bind. exists f. split; [|apply elem_of_seq; lia].
      apply list_elem_of_bind. exists h. split; [|apply elem_of_seq; lia].
      rewrite !elem_of_cons. tauto.
  - split.
    + intros (t & (f & ->%list_elem_of_singleton & Hf%elem_of_seq)%list_elem_of_bind
               & Ht%elem_of_seq)%list_elem_of_bind.
      exists t, f. split; [lia|done].
    + intros (t & f & (Ht & Hf) & ->).
      apply list_elem_of_bind. exists t. split; [|apply elem_of_seq; lia].
      apply list_elem_of_bind. exists f. split; [|apply elem_of_seq; lia].
      by apply list_elem_of_singleton.
Qed.

(** An assignment satisfies the problem exactly when the four families
    hold with their sums written out. *)
Lemma satisfies_prob :
  satisfies (prob E num_flights num_boats num_teams num_heats) a
  ↔ model_holds num_flights num_boats num_teams num_heats a.
Proof.
  unfold satisfies. split.
  - intros Hsat. split.
    + intros f h b Hf Hh Hb. eapply valid_Boat, Hsat, elem_of_constraints.
      left. by exists f, h, b.
    + intros t f h Ht Hf Hh. eapply valid_Team, Hsat, elem_of_constraints.
      right; left. by exists t, f, h.
    + intros t1 t2 f h Ht Hf Hh. eapply valid_W1, Hsat, elem_of_constraints.
      right; right; left. exists t1, t2, f, h. split; [done|by left].
    + intros t1 t2 f h Ht Hf Hh. eapply valid_W2, Hsat, elem_of_constraints.
      right; right; left. exists t1, t2, f, h. split; [done|by right; left].
    + intros t1 t2 f h Ht Hf Hh. eapply valid_W3, Hsat, elem_of_constraints.
      right; right; left. exists t1, t2, f, h. split; [done|by right; right].
    + intros t f Ht Hf. eapply valid_Participation, Hsat, elem_of_constraints.
      right; right; right. by exists t, f.
  - intros [HB HT H1 H2 H3 HP] n c Hnc. apply elem_of_constraints in Hnc
      as [(f & h & b & (? & ? & ?) & [= -> ->])
         |[(t & f & h & (? & ? & ?) & [= -> ->])
         |[(t1 & t2 & f & h & (? & ? & ?) & [[= -> ->]|[[= -> ->]|[= -> ->]]])
         |(t & f & (? & ?) & [= -> ->])]]].
    + apply valid_Boat; auto.
    + apply valid_Team; auto.
    + apply valid_W1; auto.
    + apply valid_W2; auto.
    + apply valid_W3; auto.
    + apply valid_Participation; auto.
Qed.
End constraints.

(** ** The extraction loops *)

Section extraction.
Variables num_flights num_boats num_teams num_heats : nat.
Variable value : LpVariable → option Q.

Lemma last_team_Some f h b n t :
  last_team value f h b n = Some t ↔
  (t < n)%nat ∧ equals_one (value (x_ t f h b)) = true ∧
  ∀ t', (t < t' < n)%nat → equals_one (value (x_ t' f h b)) = false.
Proof.
  induction n as [|n IH]; simpl; [split; [done|lia]|].
  destruct (equals_one (value (x_ n f h b))) eqn:Hn.
  - split.
    + intros [= <-]. split_and!; [lia|done|lia].
    + intros (Ht & Ht1 & Hlast). f_equal.
      destruct (decide (t = n)) as [|Hne]; [done|].
      rewrite (Hlast n) in Hn; [done|lia].
  - rewrite IH. split; intros (Ht & Ht1 & Hlast).
    + split_and!; [lia|done|]. intros t' Ht'.
      destruct (decide (t' = n)) as [->|]; [done|apply Hlast; lia].
    + assert (t ≠ n) by congruence. split_and!; [lia|done|].
      intros t' Ht'. apply Hlast. lia.
Qed.

Lemma last_team_None f h b n :
  last_team value f h b n = None ↔
  ∀ t, (t < n)%nat → equals_one (value (x_ t f h b)) = false.
Proof.
  induction n as [|n IH]; simpl; [split; [lia|done]|].
  destruct (equals_one (value (x_ n f h b))) eqn:Hn.
  - split; [done|]. intros Hall. rewrite Hall in Hn; [done|lia].
  - rewrite IH. split; intros Hall t Ht.
    + destruct (decide (t = n)) as [->|]; [done|apply Hall; lia].
    + apply Hall. lia.
Qed.

(** The inner loop [for t in teams] at boat [b]. *)
Lemma team_loop_lookup f h b n (m : gmap nat nat) b' :
  foldl (λ heat_schedule t,
           if equals_one (value (x_ t f h b))
           then <[b := (t + 1)%nat]> heat_schedule
           else heat_schedule) m (seq 0 n) !! b'
  = if decide (b' = b)
    then match last_team value f h b n with
         | Some t => Some (t + 1)%nat
         | None => m !! b
         end
    else m !! b'.
Proof.
  induction n as [|n IH]; [by case_decide; subst|].
  rewrite seq_S, foldl_snoc. simpl.
  destruct (equals_one (value (x_ n f h b))).
  - rewrite lookup_insert. repeat case_decide; congruence.
  - apply IH.
Qed.

(** The dictionary of one heat after both loops. *)
Lemma heat_schedule_lookup f h b :
  heat_schedule num_boats num_teams value f h !! b
  = if decide (b < num_boats)%nat
    then (λ t, (t + 1)%nat) <$> last_team value f h b num_teams
    else None.
Proof.
  unfold heat_schedule, boats, teams.
  induction num_boats as [|n IH]; [by case_decide; [lia|]|].
  rewrite seq_S, foldl_snoc. simpl. rewrite team_loop_lookup.
  destruct (decide (b = n)) as [->|Hb].
  - rewrite decide_True by lia. rewrite IH, decide_False by lia.
    by destruct (last_team value f h n num_teams).
  - rewrite IH. repeat case_decide; try lia; done.
Qed.

Lemma extract_schedule_lookup f flight_schedule :
  extract_schedule num_flights num_boats num_teams num_heats value !! f
    = Some flight_schedule ↔
  (f < num_flights)%nat ∧
  flight_schedule
    = (λ h, heat_schedule num_boats num_teams value f h) <$> seq 0 num_heats.
Proof.
  unfold extract_schedule, flights, heats.
  rewrite list_lookup_fmap_Some. setoid_rewrite lookup_seq. split.
  - by intros (f' & -> & -> & ?).
  - intros [? ->]. by exists f.
Qed.

Lemma appears_extract f h b c :
  appears (extract_schedule num_flights num_boats num_teams num_heats value) f h b c
  ↔ (f < num_flights ∧ h < num_heats ∧ b < num_boats)%nat ∧
    ∃ t, last_team value f h b num_teams = Some t ∧ c = (t + 1)%nat.
Proof.
  unfold appears. split.
  - intros (fs & m & (Hf & ->)%extract_schedule_lookup & Hh & Hb).
    apply list_lookup_fmap_Some in Hh as (h' & -> & [-> Hh]%lookup_seq).
    simpl in Hb. rewrite heat_schedule_lookup in Hb.
    case_decide; [|done]. apply fmap_Some in Hb as (t & Ht & ->).
    split; [lia|]. by exists t.
  - intros ((Hf & Hh & Hb) & t & Ht & ->).
    eexists _, (heat_schedule num_boats num_teams value f h). split_and!.
    + by apply extract_schedule_lookup.
    + apply list_lookup_fmap_Some. exists h. split; [done|]. by apply lookup_seq.
    + rewrite heat_schedule_lookup, decide_True, Ht by done. done.
Qed.

Lemma length_extract_schedule :
  length (extract_schedule num_flights num_boats num_teams num_heats value)
  = num_flights.
Proof. unfold extract_schedule, flights. by rewrite length_fmap, length_seq. Qed.
End extraction.

(** ** The status test, lines 80-82 *)

Lemma no_solution_statuses result :
  LpStatus result ∈ ["Infeasible"; "Unbounded"; "Undefined"] ↔
  result = LpStatusInfeasible ∨ result = LpStatusUnbounded ∨ result = LpStatusUndefined.
Proof.
  split.
  - destruct result; auto; intros Hin; exfalso;
      apply (bool_decide_pack _) in Hin; vm_compute in Hin; exact Hin.
  - intros [-> | [-> | ->]]; by_computation.
Qed.

Lemma generate_schedule_unfold E num_flights num_boats num_teams num_heats result value :
  PULP_CBC_CMD E (time_limit E) (prob E num_flights num_boats num_teams num_heats)
    = (result, value) →
  generate_schedule E num_flights num_boats num_teams num_heats
  = if bool_decide (LpStatus result ∈ ["Infeasible"; "Unbounded"; "Undefined"])
    then None
    else Some (extract_schedule num_flights num_boats num_teams num_heats value).
Proof. unfold generate_schedule. by intros ->. Qed.

Lemma generate_schedule_Some E num_flights num_boats num_teams num_heats result value
    schedule :
  PULP_CBC_CMD E (time_limit E) (prob E num_flights num_boats num_teams num_heats)
    = (result, value) →
  generate_schedule E num_flights num_boats num_teams num_heats = Some schedule →
  (result = LpStatusNotSolved ∨ result = LpStatusOptimal) ∧
  schedule = extract_schedule num_flights num_boats num_teams num_heats value.
Proof.
  intros Hout. rewrite (generate_schedule_unfold _ _ _ _ _ _ _ Hout).
  case_bool_decide as Hst; [done|]. intros [= <-]. split; [|done].
  rewrite no_solution_statuses in Hst. destruct result; tauto.
Qed.

(** ** The returned structure *)

(** The test of line 92 fires exactly for a variable whose value is a
    number equal to 1. *)
Lemma equals_one_true v : equals_one v = true ↔ evaluates_to_1 v.
Proof.
  unfold evaluates_to_1. destruct v as [q|]; simpl.
  - rewrite Qeq_bool_iff. split; [by exists q|by intros (q' & [= <-] & ?)].
  - split; [done|by intros (q' & [=] & _)].
Qed.

Lemma equals_one_false v : equals_one v = false ↔ ¬ evaluates_to_1 v.
Proof. rewrite <- equals_one_true. by destruct (equals_one v). Qed.

(** C10. Whenever the status that [prob.solve] returns is not one of
    Infeasible, Unbounded, Undefined (so for Optimal, and for the Not Solved
    of a time-out without incumbent), [generate_schedule] does not return
    [None]: it returns [num_flights] entries of [num_heats] dictionaries
    each, and a dictionary holds under boat [b] the number of the last team
    whose variable has a value equal to 1 there, and nothing for a boat
    without such a team. *)
Theorem generate_schedule_other_statuses
    E num_flights num_boats num_teams num_heats result value :
  PULP_CBC_CMD E (time_limit E) (prob E num_flights num_boats num_teams num_heats)
    = (result, value) →
  LpStatus result ∉ ["Infeasible"; "Unbounded"; "Undefined"] →
  ∃ schedule,
    generate_schedule E num_flights num_boats num_teams num_heats = Some schedule ∧
    length schedule = num_flights ∧
    (∀ flight_schedule, flight_schedule ∈ schedule →
                        length flight_schedule = num_heats) ∧
    (∀ f h b c, appears schedule f h b c ↔
       (f < num_flights ∧ h < num_heats ∧ b < num_boats)%nat ∧
       ∃ t, (t < num_teams)%nat ∧ c = (t + 1)%nat ∧
            (∃ q, value (x_ t f h b) = Some q ∧ q == 1) ∧
            ∀ t', (t < t' < num_teams)%nat →
                  ¬ ∃ q, value (x_ t' f h b) = Some q ∧ q == 1).
Proof.
  intros Hout Hst. eexists. split_and!.
  - rewrite (generate_schedule_unfold _ _ _ _ _ _ _ Hout).
    by rewrite bool_decide_eq_false_2.
  - apply length_extract_schedule.
  - intros fs (f & -> & _)%list_elem_of_fmap.
    unfold heats. by rewrite length_fmap, length_seq.
  - intros f h b c. rewrite appears_extract. setoid_rewrite last_team_Some.
    setoid_rewrite equals_one_true. setoid_rewrite equals_one_false.
    unfold evaluates_to_1.
    split; intros (Hr & t & Ht); (split; [done|]); exists t; tauto.
Qed.

Lemma generate_schedule_other_statuses_witness :
  ∃ schedule,
    generate_schedule run_printed 1 3 3 1 = Some schedule ∧
    length schedule = 1%nat ∧
    (∀ flight_schedule, flight_schedule ∈ schedule → length flight_schedule = 1%nat) ∧
    (∀ f h b c, appears schedule f h b c ↔
       (f < 1 ∧ h < 1 ∧ b < 3)%nat ∧
       ∃ t, (t < 3)%nat ∧ c = (t + 1)%nat ∧
            (∃ q, printed (x_ t f h b) = Some q ∧ q == 1) ∧
            ∀ t', (t < t' < 3)%nat →
                  ¬ ∃ q, printed (x_ t' f h b) = Some q ∧ q == 1).
Proof.
  apply (generate_schedule_other_statuses run_printed 1 3 3 1
           LpStatusNotSolved printed).
  - reflexivity.
  - by_computation.
Defined.

(** C9. The extractor: a returned schedule lists the flights in index
    order, each flight its heats in index order; the dictionary of heat [h]
    of flight [f] has a key for exactly the boats in which the variable of
    some team has a value equal to 1, and the entry is that team's index
    plus 1 (the last such team in loop order, which is the only one when the
    values satisfy the boat constraints). No entry is made for other
    boats. *)
Theorem extractor_postcondition
    E num_flights num_boats num_teams num_heats result value schedule :
  PULP_CBC_CMD E (time_limit E) (prob E num_flights num_boats num_teams num_heats)
    = (result, value) →
  generate_schedule E num_flights num_boats num_teams num_heats = Some schedule →
  length schedule = num_flights ∧
  ∀ f, (f < num_flights)%nat →
    ∃ flight_schedule,
      schedule !! f = Some flight_schedule ∧
      length flight_schedule = num_heats ∧
      ∀ h, (h < num_heats)%nat →
        ∃ heat_schedule : gmap nat nat,
          flight_schedule !! h = Some heat_schedule ∧
          (∀ b, is_Some (heat_schedule !! b) ↔
                (b < num_boats)%nat ∧
                ∃ t, (t < num_teams)%nat ∧
                     ∃ q, value (x_ t f h b) = Some q ∧ q == 1) ∧
          (∀ b c, heat_schedule !! b = Some c ↔
                  (b < num_boats)%nat ∧
                  ∃ t, (t < num_teams)%nat ∧ c = (t + 1)%nat ∧
                       (∃ q, value (x_ t f h b) = Some q ∧ q == 1) ∧
                       ∀ t', (t < t' < num_teams)%nat →
                             ¬ ∃ q, value (x_ t' f h b) = Some q ∧ q == 1).
Proof.
  intros Hout [_ ->]%(generate_schedule_Some _ _ _ _ _ _ _ _ Hout).
  split; [apply length_extract_schedule|]. intros f Hf.
  eexists. split_and!; [by apply extract_schedule_lookup| |].
  { by rewrite length_fmap, length_seq. }
  intros h Hh. exists (heat_schedule num_boats num_teams value f h). split_and!.
  - apply list_lookup_fmap_Some. exists h. split; [done|]. by apply lookup_seq.
  - intros b. rewrite heat_schedule_lookup. case_decide as Hb.
    + rewrite fmap_is_Some. split.
      * intros [t (Ht & H1%equals_one_true & _)%last_team_Some].
        split; [done|]. by exists t.
      * intros [_ (t & Ht & H1%equals_one_true)].
        destruct (last_team value f h b num_teams) eqn:Hlast; [done|].
        rewrite last_team_None in Hlast. rewrite Hlast in H1; done.
    + split; [by intros [? ?]|tauto].
  - intros b c. rewrite heat_schedule_lookup. case_decide as Hb.
    + rewrite fmap_Some. setoid_rewrite last_team_Some.
      setoid_rewrite equals_one_true. setoid_rewrite equals_one_false.
      unfold evaluates_to_1. split.
      * intros (t & (Ht & H1 & Hlast) & ->). split; [done|]. by exists t.
      * intros (_ & t & Ht & -> & H1 & Hlast). by exists t.
    + split; [done|tauto].
Qed.

(** ** The variables of the model and what the solver leaves in them *)

Lemma terms_lpSum_for {A} (g : A → LpVariable) (l : list A) :
  terms (lpSum (i ← l; [of_var (g i)])) = (λ i, (g i, 1)) <$> l.
Proof. induction l as [|i l IH]; csimpl; [done|]. by rewrite IH. Qed.

Section variables.
Variable E : Env.
Variables num_flights num_boats num_teams num_heats : nat.

Abbreviation prob := (prob E num_flights num_boats num_teams num_heats).

Lemma variables_x t f h b :
  (t < num_teams)%nat → (f < num_flights)%nat → (h < num_heats)%nat →
  (b < num_boats)%nat → x_ t f h b ∈ variables prob.
Proof.
  intros Ht Hf Hh Hb. unfold variables. apply elem_of_app. right.
  apply list_elem_of_bind. eexists. split; [|apply elem_of_constraints].
  2:{ right; left. exists t, f, h. split; [done|reflexivity]. }
  unfold constraint_variables. simpl. apply elem_of_app. left.
  unfold boats_of. rewrite terms_lpSum_for, <- list_fmap_compose.
  apply list_elem_of_fmap. exists b. split; [done|]. apply elem_of_seq. lia.
Qed.

Lemma variables_w t1 t2 f h :
  (t1 < t2 < num_teams)%nat → (f < num_flights)%nat → (h < num_heats)%nat →
  w_ (t1, t2) f h ∈ variables prob.
Proof.
  intros Ht Hf Hh. unfold variables. apply elem_of_app. right.
  apply list_elem_of_bind. eexists. split; [|apply elem_of_constraints].
  2:{ right; right; left. exists t1, t2, f, h. split; [done|left; reflexivity]. }
  unfold constraint_variables. simpl. left.
Qed.

Lemma relaxed_of_feasible p a : feasible p a → relaxed p a.
Proof.
  intros [Hbin Hsat]. split; [|done]. intros v Hv.
  destruct (Hbin v Hv) as [Hv0|Hv1]; [rewrite Hv0|rewrite Hv1]; lra.
Qed.

Lemma equals_one_Some q : equals_one (Some q) = true ↔ q == 1.
Proof. apply Qeq_bool_iff. Qed.

Lemma equals_one_reads p value a v :
  reads p value a → v ∈ variables p →
  equals_one (value v) = true ↔ a v == 1.
Proof.
  intros Hreads Hv. destruct (Hreads v Hv) as (q & -> & Hq).
  rewrite equals_one_Some, Hq. done.
Qed.

Lemma equals_one_unset p value v :
  unset p value → v ∈ variables p → equals_one (value v) = false.
Proof.
  intros Hunset Hv. specialize (Hunset v Hv).
  destruct (value v) as [q|]; [|done]. simpl.
  destruct (Qeq_bool q 1) eqn:Hq; [|done].
  apply Qeq_bool_iff in Hq. rewrite Hunset in Hq. discriminate.
Qed.

(** After a status that lets the schedule through, the variables hold a
    point of the relaxation, or nothing. *)
Lemma contract_after_return p result value :
  solver_contract p (result, value) →
  result = LpStatusNotSolved ∨ result = LpStatusOptimal →
  (∃ a, relaxed p a ∧ reads p value a) ∨ unset p value.
Proof.
  unfold solver_contract. simpl. intros Hc [->| ->]; [done|].
  destruct Hc as (a & Ha & Hr). left. exists a. split; [|done].
  by apply relaxed_of_feasible.
Qed.

(** In a point of the relaxation a team sits in at most one boat of a
    heat, and a boat carries at most one team. *)
Lemma relaxed_one_boat a t f h b1 b2 :
  relaxed prob a →
  (t < num_teams)%nat → (f < num_flights)%nat → (h < num_heats)%nat →
  (b1 < num_boats)%nat → (b2 < num_boats)%nat →
  a (x_ t f h b1) == 1 → a (x_ t f h b2) == 1 → b1 = b2.
Proof.
  intros [Hbd Hsat%satisfies_prob] Ht Hf Hh Hb1 Hb2 H1 H2.
  destruct (decide (b1 = b2)) as [|Hne]; [done|exfalso].
  pose proof (Team_holds _ _ _ _ _ Hsat t f h Ht Hf Hh) as Hocc.
  pose proof (Qsum_two (λ b, a (x_ t f h b)) (seq 0 num_boats) b1 b2) as Htwo.
  unfold occ in Hocc. simpl in Htwo. rewrite H1, H2 in Htwo.
  assert (1 + 1 <= 1); [|lra]. eapply Qle_trans; [apply Htwo|exact Hocc].
  - apply NoDup_seq.
  - intros b Hb%elem_of_seq. apply Hbd, variables_x; lia.
  - apply elem_of_seq; lia.
  - apply elem_of_seq; lia.
  - done.
Qed.

Lemma relaxed_one_team a f h b t1 t2 :
  relaxed prob a →
  (f < num_flights)%nat → (h < num_heats)%nat → (b < num_boats)%nat →
  (t1 < num_teams)%nat → (t2 < num_teams)%nat →
  a (x_ t1 f h b) == 1 → a (x_ t2 f h b) == 1 → t1 = t2.
Proof.
  intros [Hbd Hsat%satisfies_prob] Hf Hh Hb Ht1 Ht2 H1 H2.
  destruct (decide (t1 = t2)) as [|Hne]; [done|exfalso].
  pose proof (Boat_holds _ _ _ _ _ Hsat f h b Hf Hh Hb) as Hload.
  pose proof (Qsum_two (λ t, a (x_ t f h b)) (seq 0 num_teams) t1 t2) as Htwo.
  unfold load in Hload. simpl in Htwo. rewrite H1, H2 in Htwo.
  assert (1 + 1 <= 1); [|lra]. eapply Qle_trans; [apply Htwo|exact Hload].
  - apply NoDup_seq.
  - intros t Ht%elem_of_seq. apply Hbd, variables_x; lia.
  - apply elem_of_seq; lia.
  - apply elem_of_seq; lia.
  - done.
Qed.
End variables.

(** ** Exclusivity in the returned schedule *)

Lemma diagonal_feasible_1221 : feasible (prob run_diagonal 1 2 2 1) diagonal.
Proof. by_computation. Qed.

Lemma solved_diagonal_contract_1221 :
  solver_contract (prob run_diagonal 1 2 2 1)
    (PULP_CBC_CMD run_diagonal (time_limit run_diagonal) (prob run_diagonal 1 2 2 1)).
Proof.
  exists diagonal. split; [apply diagonal_feasible_1221|].
  intros v _. by exists (diagonal v).
Qed.

(** C2. In a returned schedule a boat of a heat carries at most one team:
    two team numbers found under the same (flight, heat, boat) are the same.
    Behind it stands the first constraint family: when the solver kept its
    contract, at most one team's variable reads 1 for that boat, so the
    entry stands for the only team assigned there. *)
Theorem boat_carries_one_team E num_flights num_boats num_teams num_heats schedule :
  generate_schedule E num_flights num_boats num_teams num_heats = Some schedule →
  (∀ f h b c1 c2,
     appears schedule f h b c1 → appears schedule f h b c2 → c1 = c2) ∧
  (let p := prob E num_flights num_boats num_teams num_heats in
   solver_contract p (PULP_CBC_CMD E (time_limit E) p) →
   ∀ f h b t1 t2,
     (f < num_flights)%nat → (h < num_heats)%nat → (b < num_boats)%nat →
     (t1 < num_teams)%nat → (t2 < num_teams)%nat →
     equals_one ((PULP_CBC_CMD E (time_limit E) p).2 (x_ t1 f h b)) = true →
     equals_one ((PULP_CBC_CMD E (time_limit E) p).2 (x_ t2 f h b)) = true →
     t1 = t2).
Proof.
  intros Hret. split.
  - intros f h b c1 c2 (fs1 & m1 & Hf1 & Hh1 & Hb1) (fs2 & m2 & Hf2 & Hh2 & Hb2).
    congruence.
  - intros p. destruct (PULP_CBC_CMD E (time_limit E) p) as [result value] eqn:Hout.
    intros Hc f h b t1 t2 Hf Hh Hb Ht1 Ht2 H1 H2. simpl in *.
    apply (generate_schedule_Some _ _ _ _ _ _ _ _ Hout) in Hret as [Hst _].
    destruct (contract_after_return _ _ _ Hc Hst) as [(a & Ha & Hr)|Hunset].
    + apply (equals_one_reads _ _ _ _ Hr) in H1, H2; [|by apply variables_x..].
      by apply (relaxed_one_team E num_flights num_boats num_teams num_heats a f h b).
    + rewrite (equals_one_unset _ _ _ Hunset) in H1; [done|by apply variables_x].
Qed.

Lemma boat_carries_one_team_witness :
  (∀ f h b c1 c2,
     appears (extract_schedule 1 2 2 1 (λ v, Some (diagonal v))) f h b c1 →
     appears (extract_schedule 1 2 2 1 (λ v, Some (diagonal v))) f h b c2 →
     c1 = c2) ∧
  (let p := prob run_diagonal 1 2 2 1 in
   solver_contract p (PULP_CBC_CMD run_diagonal (time_limit run_diagonal) p) →
   ∀ f h b t1 t2,
     (f < 1)%nat → (h < 1)%nat → (b < 2)%nat → (t1 < 2)%nat → (t2 < 2)%nat →
     equals_one
       ((PULP_CBC_CMD run_diagonal (time_limit run_diagonal) p).2 (x_ t1 f h b)) = true →
     equals_one
       ((PULP_CBC_CMD run_diagonal (time_limit run_diagonal) p).2 (x_ t2 f h b)) = true →
     t1 = t2).
Proof. apply (boat_carries_one_team run_diagonal 1 2 2 1). reflexivity. Defined.

(** A solver that kept its contract leaves values that satisfy the team
    rows exactly, so the tolerance of [team_rows_within] can be taken 0. *)
Lemma contract_keeps_team_rows E num_flights num_boats num_teams num_heats result value :
  solver_contract (prob E num_flights num_boats num_teams num_heats) (result, value) →
  result = LpStatusNotSolved ∨ result = LpStatusOptimal →
  team_rows_within 0 num_flights num_boats num_teams num_heats value.
Proof.
  intros Hc Hst t f h Ht Hf Hh.
  destruct (contract_after_return _ _ _ Hc Hst) as [(a & Ha & Hr)|Hunset].
  - assert (∀ b, (b < num_boats)%nat →
                 value_or_0 value (x_ t f h b) == a (x_ t f h b)) as Hval.
    { intros b Hb. unfold value_or_0.
      destruct (Hr (x_ t f h b)) as (q & -> & Hq); [by apply variables_x|done]. }
    split.
    + intros b Hb. rewrite (Hval b Hb).
      destruct Ha as [Hbd _]. specialize (Hbd (x_ t f h b)).
      assert (0 <= a (x_ t f h b) <= 1) by (apply Hbd; by apply variables_x). lra.
    + unfold occ.
      rewrite (Qsum_fmap_ext _ (λ b, a (x_ t f h b))).
      2:{ intros b Hb%elem_of_seq. apply Hval. lia. }
      destruct Ha as [_ Hsat%satisfies_prob].
      pose proof (Team_holds _ _ _ _ _ Hsat t f h Ht Hf Hh) as Hocc.
      unfold occ in Hocc. lra.
  - assert (∀ b, (b < num_boats)%nat → value_or_0 value (x_ t f h b) == 0) as Hval.
    { intros b Hb. unfold value_or_0.
      specialize (Hunset (x_ t f h b)
                    (variables_x E num_flights num_boats num_teams num_heats
                       t f h b Ht Hf Hh Hb)).
      by destruct (value (x_ t f h b)). }
    split.
    + intros b Hb. rewrite (Hval b Hb). lra.
    + unfold occ. rewrite (Qsum_fmap_ext _ (λ _, 0)).
      2:{ intros b Hb%elem_of_seq. apply Hval. lia. }
      rewrite Qsum_fmap_const. lra.
Qed.

(** The values of [run_printed] are a Not Solved output as CBC prints it: a
    third rounded to eight digits. They lie outside the exact contract (the
    row of team 1 sums to 1.00000001), and within a tolerance of 1e-7. *)
Lemma printed_outside_contract :
  ¬ solver_contract (prob run_printed 1 3 3 1)
      (PULP_CBC_CMD run_printed (time_limit run_printed) (prob run_printed 1 3 3 1)).
Proof.
  intros [(a & [_ Hsat%satisfies_prob] & Hr)|Hunset].
  - pose proof (Team_holds _ _ _ _ _ Hsat 1%nat 0%nat 0%nat) as Hocc.
    unfold occ in Hocc. csimpl in Hocc.
    destruct (Hr (x_ 1 0 0 0)) as (q0 & [= <-] & H0); [apply variables_x; lia|].
    destruct (Hr (x_ 1 0 0 1)) as (q1 & [= <-] & H1); [apply variables_x; lia|].
    destruct (Hr (x_ 1 0 0 2)) as (q2 & [= <-] & H2); [apply variables_x; lia|].
    assert (a (x_ 1 0 0 0) + (a (x_ 1 0 0 1) + (a (x_ 1 0 0 2) + 0)) <= 1) as Hle
      by (apply Hocc; lia).
    rewrite <- H0, <- H1, <- H2 in Hle. revert Hle. apply Qlt_not_le. reflexivity.
  - specialize (Hunset (x_ 0 0 0 0)). simpl in Hunset.
    assert (1 == 0) as Habs by (apply Hunset, variables_x; lia). discriminate Habs.
Qed.




(** ** Participation: once per flight *)

Section participation.
Variable E : Env.
Variables num_flights num_boats num_teams num_heats : nat.
Variable a : LpVariable → Q.

Abbreviation prob := (prob E num_flights num_boats num_teams num_heats).

Lemma occ_nonneg t f h :
  relaxed prob a →
  (t < num_teams)%nat → (f < num_flights)%nat → (h < num_heats)%nat →
  0 <= occ num_boats a t f h.
Proof.
  intros [Hbd _] Ht Hf Hh. apply Qsum_nonneg.
  intros b Hb%elem_of_seq. apply Hbd, variables_x; lia.
Qed.

Lemma occ_ge t f h b :
  relaxed prob a →
  (t < num_teams)%nat → (f < num_flights)%nat → (h < num_heats)%nat →
  (b < num_boats)%nat → a (x_ t f h b) <= occ num_boats a t f h.
Proof.
  intros [Hbd _] Ht Hf Hh Hb.
  apply (Qsum_elem_le (λ b, a (x_ t f h b))); [|apply elem_of_seq; lia].
  intros b' Hb'%elem_of_seq. apply Hbd, variables_x; lia.
Qed.

(** A heat in which the team has positive occupancy contains a boat whose
    variable is 1. *)
Lemma occ_pos_boat t f h :
  feasible prob a →
  (t < num_teams)%nat → (f < num_flights)%nat → (h < num_heats)%nat →
  0 < occ num_boats a t f h → ∃ b, (b < num_boats)%nat ∧ a (x_ t f h b) == 1.
Proof.
  intros [Hbin _] Ht Hf Hh (b & Hb%elem_of_seq & Hpos)%Qsum_pos_elem.
  exists b. split; [lia|].
  destruct (Hbin (x_ t f h b)) as [H0|H1]; [apply variables_x; lia| |done].
  rewrite H0 in Hpos. lra.
Qed.

(** In an integer-feasible point every team has exactly one
    (heat, boat) per flight. *)
Lemma feasible_sails_once t f :
  feasible prob a → (t < num_teams)%nat → (f < num_flights)%nat →
  ∃ h b, (h < num_heats)%nat ∧ (b < num_boats)%nat ∧ a (x_ t f h b) == 1 ∧
    ∀ h' b', (h' < num_heats)%nat → (b' < num_boats)%nat →
             a (x_ t f h' b') == 1 → h' = h ∧ b' = b.
Proof.
  intros Hfeas Ht Hf. pose proof (relaxed_of_feasible _ _ Hfeas) as Hrel.
  pose proof Hfeas as [_ Hsat%satisfies_prob].
  pose proof (Participation_holds _ _ _ _ _ Hsat t f Ht Hf) as Hpart.
  destruct (Qsum_pos_elem (λ h, occ num_boats a t f h) (seq 0 num_heats))
    as (h & Hh%elem_of_seq & Hpos).
  { unfold sailed in Hpart. rewrite Hpart. lra. }
  destruct (occ_pos_boat t f h Hfeas) as (b & Hb & H1); [lia..|done|].
  exists h, b. split_and!; [lia|done|done|]. intros h' b' Hh' Hb' H1'.
  destruct (decide (h' = h)) as [->|Hne].
  - split; [done|]. by eapply (relaxed_one_boat E num_flights num_boats num_teams).
  - exfalso.
    pose proof (Qsum_two (λ h, occ num_boats a t f h) (seq 0 num_heats) h h') as Htwo.
    simpl in Htwo.
    pose proof (occ_ge t f h b Hrel Ht Hf ltac:(lia) Hb) as Hge.
    pose proof (occ_ge t f h' b' Hrel Ht Hf Hh' Hb') as Hge'.
    rewrite H1 in Hge. rewrite H1' in Hge'.
    assert (occ num_boats a t f h + occ num_boats a t f h' <= 1); [|lra].
    eapply Qle_trans; [apply Htwo|unfold sailed in Hpart; rewrite Hpart; lra].
    + apply NoDup_seq.
    + intros k Hk%elem_of_seq. apply occ_nonneg; [done|lia..].
    + apply elem_of_seq. lia.
    + apply elem_of_seq. lia.
    + done.
Qed.

(** With more teams than boat places in a flight, not even the continuous
    relaxation has a point. *)
Lemma too_many_teams_relaxed :
  (0 < num_flights)%nat → (num_boats * num_heats < num_teams)%nat →
  ¬ relaxed prob a.
Proof.
  intros Hf Hlt [Hbd Hsat%satisfies_prob].
  pose proof (Qsum_fmap_ext
    (λ t, sailed num_boats num_heats a t 0) (λ _, 1) (seq 0 num_teams)) as Hall.
  rewrite Qsum_fmap_const, length_seq in Hall.
  assert (Qsum ((λ t, sailed num_boats num_heats a t 0) <$> seq 0 num_teams)
          <= inject_Z (Z.of_nat num_heats) * inject_Z (Z.of_nat num_boats)) as Hle.
  { unfold sailed. rewrite Qsum_swap.
    apply Qle_trans
      with (Qsum ((λ _ : nat, inject_Z (Z.of_nat num_boats)) <$> seq 0 num_heats)).
    2:{ rewrite Qsum_fmap_const, length_seq. lra. }
    apply Qsum_fmap_le. intros h Hh%elem_of_seq.
    unfold occ. rewrite Qsum_swap.
    apply Qle_trans with (Qsum ((λ _ : nat, 1) <$> seq 0 num_boats)).
    2:{ rewrite Qsum_fmap_const, length_seq. lra. }
    apply Qsum_fmap_le. intros b Hb%elem_of_seq.
    apply (Boat_holds _ _ _ _ _ Hsat 0%nat h b); lia. }
  rewrite Hall in Hle.
  2:{ intros t Ht%elem_of_seq. apply (Participation_holds _ _ _ _ _ Hsat); lia. }
  rewrite <- inject_Z_mult, Qmult_1_r, <- Zle_Qle in Hle. lia.
Qed.

Lemma too_many_teams_infeasible :
  (0 < num_flights)%nat → (num_boats * num_heats < num_teams)%nat →
  ¬ feasible prob a.
Proof. intros Hf Hlt Hfeas%relaxed_of_feasible. by eapply too_many_teams_relaxed. Qed.
End participation.

(** When the solver reports Optimal (an optimum, or the incumbent at the
    time limit), every team stands in the returned schedule exactly once per
    flight. *)
Lemma optimal_status_sails_once
    E num_flights num_boats num_teams num_heats value schedule t f :
  PULP_CBC_CMD E (time_limit E) (prob E num_flights num_boats num_teams num_heats)
    = (LpStatusOptimal, value) →
  solver_contract (prob E num_flights num_boats num_teams num_heats)
    (LpStatusOptimal, value) →
  generate_schedule E num_flights num_boats num_teams num_heats = Some schedule →
  (t < num_teams)%nat → (f < num_flights)%nat →
  ∃ h b, appears schedule f h b (t + 1) ∧
         ∀ h' b', appears schedule f h' b' (t + 1) → h' = h ∧ b' = b.
Proof.
  intros Hout (a & Hfeas & Hr) [_ ->]%(generate_schedule_Some _ _ _ _ _ _ _ _ Hout) Ht Hf.
  destruct (feasible_sails_once E _ _ _ _ a t f Hfeas Ht Hf)
    as (h & b & Hh & Hb & H1 & Huniq).
  pose proof (relaxed_of_feasible _ _ Hfeas) as Hrel.
  exists h, b. split.
  - apply appears_extract. split; [done|]. exists t. split; [|done].
    apply last_team_Some. split_and!; [done| |].
    + apply (equals_one_reads _ _ _ _ Hr); [by apply variables_x|done].
    + intros t' Ht'. destruct (equals_one (value (x_ t' f h b))) eqn:H1'; [|done].
      apply (equals_one_reads _ _ _ _ Hr) in H1'; [|apply variables_x; lia].
      assert (t' = t); [|lia].
      eapply (relaxed_one_team E num_flights num_boats num_teams num_heats a f h b);
        [done|lia..|done|done].
  - intros h' b' [(_ & Hh' & Hb') (t' & Hl & Heq)]%appears_extract.
    assert (t' = t) as -> by lia.
    apply last_team_Some in Hl as (_ & H1' & _).
    apply (equals_one_reads _ _ _ _ Hr) in H1'; [|by apply variables_x].
    by apply Huniq.
Qed.

(** ** Runs in which CBC stops without a solution *)

Lemma last_team_no_value f h b n : last_team (λ _, None) f h b n = None.
Proof. induction n; simpl; auto. Qed.

Lemma no_value_no_entry num_flights num_boats num_teams num_heats f h b c :
  ¬ appears (extract_schedule num_flights num_boats num_teams num_heats (λ _, None))
      f h b c.
Proof.
  intros [_ (t & Ht & _)]%appears_extract. by rewrite last_team_no_value in Ht.
Qed.

Lemma run_without_solution_contract p :
  solver_contract p (PULP_CBC_CMD run_without_solution (time_limit run_without_solution) p).
Proof. right. by intros v _. Qed.

Lemma run_without_solution_schedule num_flights num_boats num_teams num_heats :
  generate_schedule run_without_solution num_flights num_boats num_teams num_heats
  = Some (extract_schedule num_flights num_boats num_teams num_heats (λ _, None)).
Proof. reflexivity. Qed.

(** C1 (the code departs from it). With the largest sizes the form allows
    (20 flights, 10 boats, 20 teams, 6 heats), a time limit of one second
    and CBC stopping on it before it has an integer solution, the status is
    Not Solved, the test of line 80 lets it pass, and the returned schedule
    has no entry at all: team number 1 occupies no (heat, boat) of flight 0,
    where the specification promises exactly one. (With status Optimal the
    property holds: [optimal_status_sails_once].) *)
Theorem participation_lost_without_incumbent :
  solver_contract (prob run_without_solution 20 10 20 6)
    (PULP_CBC_CMD run_without_solution (time_limit run_without_solution)
       (prob run_without_solution 20 10 20 6)) ∧
  ∃ schedule,
    generate_schedule run_without_solution 20 10 20 6 = Some schedule ∧
    length schedule = 20%nat ∧
    ∀ h b, ¬ appears schedule 0 h b 1.
Proof.
  split; [apply run_without_solution_contract|].
  eexists. split_and!; [apply run_without_solution_schedule| |].
  - apply length_extract_schedule.
  - intros h b. apply no_value_no_entry.
Qed.

(** ** The statuses and the no-solution signal *)

Lemma no_solution_statuses_return_None
    E num_flights num_boats num_teams num_heats result value :
  PULP_CBC_CMD E (time_limit E) (prob E num_flights num_boats num_teams num_heats)
    = (result, value) →
  result = LpStatusInfeasible ∨ result = LpStatusUnbounded ∨ result = LpStatusUndefined →
  generate_schedule E num_flights num_boats num_teams num_heats = None.
Proof.
  intros Hout Hst. rewrite (generate_schedule_unfold _ _ _ _ _ _ _ Hout).
  by rewrite bool_decide_eq_true_2 by by apply no_solution_statuses.
Qed.

(** The incumbent of a time-out (status Optimal in PuLP) is accepted. *)
Lemma incumbent_is_extracted E num_flights num_boats num_teams num_heats value :
  PULP_CBC_CMD E (time_limit E) (prob E num_flights num_boats num_teams num_heats)
    = (LpStatusOptimal, value) →
  generate_schedule E num_flights num_boats num_teams num_heats
  = Some (extract_schedule num_flights num_boats num_teams num_heats value).
Proof. intros Hout. by rewrite (generate_schedule_unfold _ _ _ _ _ _ _ Hout). Qed.

(** C6 (the code departs from it). Infeasible, Unbounded and Undefined give
    [None] and an incumbent is accepted (the two lemmas above), but a
    time-out without incumbent does not give [None]: the status is then
    Not Solved, which line 80 does not list, and a schedule of empty
    dictionaries is returned. *)
Theorem timeout_without_incumbent_returns_schedule :
  (PULP_CBC_CMD run_without_solution (time_limit run_without_solution)
     (prob run_without_solution 20 10 20 6)).1 = LpStatusNotSolved ∧
  unset (prob run_without_solution 20 10 20 6)
    (PULP_CBC_CMD run_without_solution (time_limit run_without_solution)
       (prob run_without_solution 20 10 20 6)).2 ∧
  generate_schedule run_without_solution 20 10 20 6 ≠ None ∧
  ∀ schedule f h b c,
    generate_schedule run_without_solution 20 10 20 6 = Some schedule →
    ¬ appears schedule f h b c.
Proof.
  split_and!; [done|by intros v _|by rewrite run_without_solution_schedule|].
  intros schedule f h b c. rewrite run_without_solution_schedule.
  intros [= <-]. apply no_value_no_entry.
Qed.

(** With more teams than boat places per flight the solver can never report
    Optimal, and every status other than Not Solved gives [None]. *)
Lemma too_many_teams_outcome E num_flights num_boats num_teams num_heats result value :
  (0 < num_flights)%nat → (num_boats * num_heats < num_teams)%nat →
  PULP_CBC_CMD E (time_limit E) (prob E num_flights num_boats num_teams num_heats)
    = (result, value) →
  solver_contract (prob E num_flights num_boats num_teams num_heats) (result, value) →
  result ≠ LpStatusOptimal ∧
  (result ≠ LpStatusNotSolved →
   generate_schedule E num_flights num_boats num_teams num_heats = None).
Proof.
  intros Hf Hlt Hout Hc. split.
  - intros ->. destruct Hc as (a & Hfeas & _).
    by eapply too_many_teams_infeasible.
  - intros Hns. apply (no_solution_statuses_return_None _ _ _ _ _ _ _ Hout).
    destruct result; auto; [done|].
    destruct Hc as (a & Hfeas & _). exfalso. by eapply too_many_teams_infeasible.
Qed.

(** C7. With more teams than boat places in a flight
    ([num_boats * num_heats < num_teams], and at least one flight) the model
    has no feasible point, and not even its continuous relaxation has one,
    whatever the random weights and pair penalties of [E]. CBC solves the
    relaxation before it branches and reports Infeasible when that has no
    point; every such solve attempt makes [generate_schedule] return
    [None], whatever the time limit. *)
Theorem too_many_teams_reports_no_solution E num_flights num_boats num_teams num_heats :
  (0 < num_flights)%nat → (num_boats * num_heats < num_teams)%nat →
  (∀ a, ¬ feasible (prob E num_flights num_boats num_teams num_heats) a) ∧
  (∀ a, ¬ relaxed (prob E num_flights num_boats num_teams num_heats) a) ∧
  (reports_infeasible_relaxation (prob E num_flights num_boats num_teams num_heats)
     (PULP_CBC_CMD E (time_limit E) (prob E num_flights num_boats num_teams num_heats)) →
   generate_schedule E num_flights num_boats num_teams num_heats = None).
Proof.
  intros Hf Hlt. split_and!.
  - intros a. by apply too_many_teams_infeasible.
  - intros a. by apply too_many_teams_relaxed.
  - destruct (PULP_CBC_CMD E (time_limit E) _) as [result value] eqn:Hout.
    intros Hrep. apply (no_solution_statuses_return_None _ _ _ _ _ _ _ Hout).
    left. apply Hrep. intros [a Ha]. by eapply too_many_teams_relaxed.
Qed.

Lemma too_many_teams_reports_no_solution_witness :
  (0 < 20)%nat ∧ (3 * 6 < 20)%nat ∧
  (∀ a, ¬ feasible (prob run_infeasible 20 3 20 6) a) ∧
  (∀ a, ¬ relaxed (prob run_infeasible 20 3 20 6) a) ∧
  generate_schedule run_infeasible 20 3 20 6 = None.
Proof.
  assert (0 < 20)%nat as Hf by lia. assert (3 * 6 < 20)%nat as Hlt by lia.
  destruct (too_many_teams_reports_no_solution run_infeasible 20 3 20 6 Hf Hlt)
    as (Hfeas & Hrel & Hnone).
  split_and!; [exact Hf|exact Hlt|exact Hfeas|exact Hrel|].
  apply Hnone. intros _. reflexivity.
Defined.

(** ** The objective, lines 38-43 *)

Lemma value_of_lpSum_bind {A} a (g : A → list LpAffineExpression) (l : list A) :
  value_of a (lpSum (l ≫= g)) == Qsum ((λ i, value_of a (lpSum (g i))) <$> l).
Proof.
  rewrite value_of_lpSum. induction l as [|i l IH]; csimpl; [reflexivity|].
  rewrite fmap_app, Qsum_app, IH, <- value_of_lpSum. reflexivity.
Qed.

Lemma Qsum_fmap_bind {A B} (F : B → Q) (g : A → list B) (l : list A) :
  Qsum (F <$> (l ≫= g)) == Qsum ((λ i, Qsum (F <$> g i)) <$> l).
Proof.
  induction l as [|i l IH]; csimpl; [reflexivity|].
  rewrite fmap_app, Qsum_app, IH. reflexivity.
Qed.

(** C5. The objective that [generate_schedule] hands to the solver is the
    sum over all (team, flight, heat, boat) of random weight times [x], plus
    the sum over all pairs of teams of the pair's penalty times (1 - the sum
    of the pair's [w] over all flights and heats); the problem minimizes
    it. *)
Theorem objective_is_weights_plus_penalties
    E num_flights num_boats num_teams num_heats a :
  direction (prob E num_flights num_boats num_teams num_heats) = LpMinimize ∧
  value_of a (objective (prob E num_flights num_boats num_teams num_heats))
  == objective_formula E num_flights num_boats num_teams num_heats a.
Proof.
  split; [apply direction_prob|]. rewrite objective_prob.
  unfold objective_formula, Objective.
  rewrite value_of_add. apply Qplus_comp.
  - unfold teams, flights, heats, boats.
    rewrite value_of_lpSum_bind, Qsum_fmap_bind. apply Qsum_fmap_ext. intros t _.
    rewrite value_of_lpSum_bind, Qsum_fmap_bind. apply Qsum_fmap_ext. intros f _.
    rewrite value_of_lpSum_bind, Qsum_fmap_bind. apply Qsum_fmap_ext. intros h _.
    rewrite value_of_lpSum_bind, Qsum_fmap_bind. apply Qsum_fmap_ext. intros b _.
    csimpl. rewrite value_of_add, value_of_scale, value_of_of_var, value_of_const. ring.
  - unfold team_pairs, teams, flights, heats.
    rewrite value_of_lpSum_bind. apply Qsum_fmap_ext. intros [t1 t2] _.
    csimpl. rewrite value_of_add, value_of_scale, value_of_sub, !value_of_const.
    rewrite value_of_lpSum_bind, Qsum_fmap_bind.
    rewrite (Qsum_fmap_ext (λ f, value_of a (lpSum (seq 0 num_heats ≫= λ h, [of_var (w_ (t1, t2) f h)])))
               (λ f, Qsum ((λ '(f, h), a (w_ (t1, t2) f h))
                           <$> (seq 0 num_heats ≫= λ h, [(f, h)])))); [ring|].
    intros f _. rewrite value_of_lpSum_bind, Qsum_fmap_bind.
    apply Qsum_fmap_ext. intros h _. csimpl.
    rewrite value_of_add, value_of_of_var, value_of_const. reflexivity.
Qed.

(** Every coefficient of the objective is a float that was drawn: the two
    dictionaries have an entry for every key the objective looks up. *)
Lemma draw_other {K} `{Countable K} (rnd : nat → Q) (keys : list K)
    (m : gmap K Q) (s : nat) k :
  k ∉ keys → (foldl (λ '(m, s) k, (<[k := rnd s]> m, S s)) (m, s) keys).1 !! k = m !! k.
Proof.
  revert m s. induction keys as [|k0 keys IH]; intros m s Hk; [done|].
  apply not_elem_of_cons in Hk as [Hne Hk]. simpl. rewrite IH by done.
  by rewrite lookup_insert_ne.
Qed.

Lemma draw_drawn {K} `{Countable K} (rnd : nat → Q) (keys : list K)
    (m : gmap K Q) (s : nat) k :
  k ∈ keys →
  ∃ n, (foldl (λ '(m, s) k, (<[k := rnd s]> m, S s)) (m, s) keys).1 !! k = Some (rnd n).
Proof.
  revert m s. induction keys as [|k0 keys IH]; intros m s Hk;
    [by apply elem_of_nil in Hk|].
  simpl. destruct (decide (k ∈ keys)) as [Hin|Hnin]; [by apply IH|].
  apply elem_of_cons in Hk as [->|?]; [|done].
  exists s. rewrite draw_other by done. apply lookup_insert_eq.
Qed.

Lemma random_weights_drawn E num_flights num_boats num_teams num_heats t f h b :
  (t < num_teams)%nat → (f < num_flights)%nat → (h < num_heats)%nat →
  (b < num_boats)%nat →
  ∃ n, random_weights E num_flights num_boats num_teams num_heats !! (t, f, h, b)
       = Some (random_random E n).
Proof.
  intros Ht Hf Hh Hb. apply draw_drawn.
  apply list_elem_of_bind. exists t. split; [|apply elem_of_seq; lia].
  apply list_elem_of_bind. exists f. split; [|apply elem_of_seq; lia].
  apply list_elem_of_bind. exists h. split; [|apply elem_of_seq; lia].
  apply list_elem_of_bind. exists b. split; [|apply elem_of_seq; lia].
  by apply list_elem_of_singleton.
Qed.

Lemma penalty_w_drawn E num_flights num_boats num_teams num_heats t1 t2 :
  (t1 < t2 < num_teams)%nat →
  ∃ n, penalty_w E num_flights num_boats num_teams num_heats !! (t1, t2)
       = Some (random_random E n).
Proof. intros Ht. by apply draw_drawn, elem_of_team_pairs. Qed.

(** ** The pairing indicators, lines 61-67 *)

Lemma x_only_lpSum l : Forall x_only l → x_only (lpSum l).
Proof.
  induction 1 as [|e l He _ IH]; intros v c; csimpl; [by intros ?%elem_of_nil|].
  intros [?|?]%elem_of_app; eauto.
Qed.

Lemma x_only_boats_of num_boats t f h : x_only (boats_of num_boats t f h).
Proof.
  apply x_only_lpSum, Forall_forall.
  intros e (b & ->%list_elem_of_singleton & _)%list_elem_of_bind v c.
  intros [= -> ->]%list_elem_of_singleton. eauto.
Qed.

Lemma x_only_no_w e p f h : x_only e → w_ p f h ∉ (terms e).*1.
Proof.
  intros He ([v c] & Hv & Hin)%list_elem_of_fmap. simpl in Hv. subst v.
  by destruct (He _ _ Hin) as (? & ? & ? & ? & ?).
Qed.

Section pairing.
Variable E : Env.
Variables num_flights num_boats num_teams num_heats : nat.

Abbreviation prob := (prob E num_flights num_boats num_teams num_heats).

(** The three inequalities are the only constraints in which the
    indicator of a pair occurs. *)
Lemma w_occurs_in n c t1 t2 f h :
  (n, c) ∈ constraints prob → w_ (t1, t2) f h ∈ constraint_variables c →
  c = W1 num_boats t1 t2 f h ∨ c = W2 num_boats t1 t2 f h
  ∨ c = W3 num_boats t1 t2 f h.
Proof.
  intros Hnc Hw. apply elem_of_constraints in Hnc
    as [(f' & h' & b' & _ & [= -> ->])
       |[(t' & f' & h' & _ & [= -> ->])
       |[(t1' & t2' & f' & h' & _ & Hc)
       |(t' & f' & _ & [= -> ->])]]];
    unfold constraint_variables in Hw; simpl in Hw.
  - exfalso. apply elem_of_app in Hw as [Hw|Hw]; [|by apply elem_of_nil in Hw].
    revert Hw. apply x_only_no_w, x_only_lpSum, Forall_forall.
    intros e (t & ->%list_elem_of_singleton & _)%list_elem_of_bind v c.
    intros [= -> ->]%list_elem_of_singleton. eauto.
  - exfalso. apply elem_of_app in Hw as [Hw|Hw]; [|by apply elem_of_nil in Hw].
    revert Hw. apply x_only_no_w, x_only_boats_of.
  - assert (w_ (t1, t2) f h = w_ (t1', t2') f' h' → c = W1 num_boats t1 t2 f h
            ∨ c = W2 num_boats t1 t2 f h ∨ c = W3 num_boats t1 t2 f h) as Hsame.
    { intros [= -> -> -> ->]. destruct Hc as [[= _ ->]|[[= _ ->]|[= _ ->]]]; auto. }
    destruct Hc as [[= -> ->]|[[= -> ->]|[= -> ->]]]; simpl in Hw.
    + apply elem_of_cons in Hw as [?|Hw]; [auto|exfalso].
      revert Hw. apply x_only_no_w, x_only_boats_of.
    + apply elem_of_cons in Hw as [?|Hw]; [auto|exfalso].
      revert Hw. apply x_only_no_w, x_only_boats_of.
    + apply elem_of_cons in Hw as [?|Hw]; [auto|exfalso].
      rewrite app_nil_r, fmap_app, elem_of_app in Hw.
      destruct Hw as [Hw|Hw]; revert Hw; apply x_only_no_w, x_only_boats_of.
  - exfalso. apply elem_of_app in Hw as [Hw|Hw]; [|by apply elem_of_nil in Hw].
    revert Hw. apply x_only_no_w, x_only_lpSum, Forall_forall.
    intros e (h' & (b & ->%list_elem_of_singleton & _)%list_elem_of_bind & _)%list_elem_of_bind
      v c.
    intros [= -> ->]%list_elem_of_singleton. eauto.
Qed.

(** In every integer-feasible point the indicator of a pair is 1 exactly
    when both teams sit in a boat of the heat, and 0 otherwise. *)
Lemma feasible_pairing a t1 t2 f h :
  feasible prob a →
  (t1 < t2 < num_teams)%nat → (f < num_flights)%nat → (h < num_heats)%nat →
  (a (w_ (t1, t2) f h) == 1 ↔
     (∃ b, (b < num_boats)%nat ∧ a (x_ t1 f h b) == 1) ∧
     (∃ b, (b < num_boats)%nat ∧ a (x_ t2 f h b) == 1)) ∧
  (a (w_ (t1, t2) f h) == 0 ∨ a (w_ (t1, t2) f h) == 1).
Proof.
  intros Hfeas Ht Hf Hh. pose proof (relaxed_of_feasible _ _ Hfeas) as Hrel.
  pose proof Hfeas as [Hbin Hsat%satisfies_prob].
  pose proof (W1_holds _ _ _ _ _ Hsat t1 t2 f h Ht Hf Hh) as H1.
  pose proof (W2_holds _ _ _ _ _ Hsat t1 t2 f h Ht Hf Hh) as H2.
  pose proof (W3_holds _ _ _ _ _ Hsat t1 t2 f h Ht Hf Hh) as H3.
  pose proof (Hbin (w_ (t1, t2) f h) (variables_w E _ _ _ _ t1 t2 f h Ht Hf Hh)) as Hw.
  split; [|done]. split.
  - intros Hw1. rewrite Hw1 in H1, H2. split.
    + apply (occ_pos_boat E num_flights num_boats num_teams num_heats a t1 f h);
        [done|lia..|lra].
    + apply (occ_pos_boat E num_flights num_boats num_teams num_heats a t2 f h);
        [done|lia..|lra].
  - intros [(b1 & Hb1 & Hx1) (b2 & Hb2 & Hx2)].
    pose proof (occ_ge E _ _ _ _ a t1 f h b1 Hrel ltac:(lia) Hf Hh Hb1) as Hge1.
    pose proof (occ_ge E _ _ _ _ a t2 f h b2 Hrel ltac:(lia) Hf Hh Hb2) as Hge2.
    rewrite Hx1 in Hge1. rewrite Hx2 in Hge2.
    destruct Hw as [Hw0|Hw1]; [|done]. rewrite Hw0 in H3. lra.
Qed.
End pairing.

(** C4. For every pair of teams and every (flight, heat) the model contains
    the three inequalities [w <= occ(t1)], [w <= occ(t2)] and
    [w >= occ(t1) + occ(t2) - 1], with [occ] the sum of the team's [x] over
    the boats, and no other constraint mentions that [w]; hence in every
    optimal solution (indeed in every integer-feasible one, see
    [feasible_pairing]) [w] is 1 exactly when both teams occupy a boat of
    that heat, and 0 otherwise. *)
Theorem pairing_linkage E num_flights num_boats num_teams num_heats t1 t2 f h :
  (t1, t2) ∈ team_pairs num_teams → f ∈ flights num_flights → h ∈ heats num_heats →
  let p := prob E num_flights num_boats num_teams num_heats in
  let w := w_ (t1, t2) f h in
  (("W1_" +:+ W_suffix t1 t2 f h, W1 num_boats t1 t2 f h) ∈ constraints p ∧
   ("W2_" +:+ W_suffix t1 t2 f h, W2 num_boats t1 t2 f h) ∈ constraints p ∧
   ("W3_" +:+ W_suffix t1 t2 f h, W3 num_boats t1 t2 f h) ∈ constraints p) ∧
  (∀ n c, (n, c) ∈ constraints p → w ∈ constraint_variables c →
          c = W1 num_boats t1 t2 f h ∨ c = W2 num_boats t1 t2 f h
          ∨ c = W3 num_boats t1 t2 f h) ∧
  (∀ a, (valid a (W1 num_boats t1 t2 f h) ↔ a w <= occ num_boats a t1 f h) ∧
        (valid a (W2 num_boats t1 t2 f h) ↔ a w <= occ num_boats a t2 f h) ∧
        (valid a (W3 num_boats t1 t2 f h)
         ↔ occ num_boats a t1 f h + occ num_boats a t2 f h - 1 <= a w)) ∧
  (∀ a, optimal p a →
        (a w == 1 ↔
           (∃ b, (b < num_boats)%nat ∧ a (x_ t1 f h b) == 1) ∧
           (∃ b, (b < num_boats)%nat ∧ a (x_ t2 f h b) == 1)) ∧
        (a w == 0 ∨ a w == 1)).
Proof.
  intros Hp%elem_of_team_pairs Hf%elem_of_seq Hh%elem_of_seq p w. split_and!.
  - apply elem_of_constraints. right; right; left.
    exists t1, t2, f, h. split; [lia|by left].
  - apply elem_of_constraints. right; right; left.
    exists t1, t2, f, h. split; [lia|by right; left].
  - apply elem_of_constraints. right; right; left.
    exists t1, t2, f, h. split; [lia|by right; right].
  - intros n c. apply w_occurs_in.
  - intros a. split_and!; [apply valid_W1|apply valid_W2|apply valid_W3].
  - intros a [Hfeas _].
    apply (feasible_pairing E num_flights num_boats num_teams num_heats); [done|lia..].
Qed.

(** ** More boats or more heats *)

Lemma Qsum_seq_restrict (g g' : nat → Q) (n n' : nat) :
  (n ≤ n')%nat →
  (∀ i, (i < n)%nat → g' i == g i) →
  (∀ i, (n ≤ i < n')%nat → g' i == 0) →
  Qsum (g' <$> seq 0 n') == Qsum (g <$> seq 0 n).
Proof.
  intros Hle Hlow Hhigh. replace n' with (n + (n' - n))%nat by lia.
  rewrite seq_app, fmap_app, Qsum_app.
  rewrite (Qsum_fmap_ext g' g (seq 0 n)).
  2:{ intros i Hi%elem_of_seq. apply Hlow. lia. }
  rewrite (Qsum_fmap_ext g' (λ _, 0) (seq (0 + n) (n' - n))).
  2:{ intros i Hi%elem_of_seq. apply Hhigh. lia. }
  rewrite Qsum_fmap_const. ring.
Qed.

Section monotone.
Variables E E' : Env.
Variables num_flights num_boats num_teams num_heats num_boats' num_heats' : nat.
Variable a : LpVariable → Q.
Hypothesis more_boats : (num_boats ≤ num_boats')%nat.
Hypothesis more_heats : (num_heats ≤ num_heats')%nat.

Abbreviation a' := (keep_within num_flights num_boats num_teams num_heats a).

Lemma keep_within_x t f h b :
  (t < num_teams)%nat → (f < num_flights)%nat → (h < num_heats)%nat →
  (b < num_boats)%nat → a' (x_ t f h b) = a (x_ t f h b).
Proof. intros. simpl. by rewrite bool_decide_eq_true_2. Qed.

Lemma keep_within_x_out t f h b :
  (num_heats ≤ h)%nat ∨ (num_boats ≤ b)%nat → a' (x_ t f h b) = 0.
Proof. intros. simpl. rewrite bool_decide_eq_false_2; [done|lia]. Qed.

Lemma occ_keep_within t f h :
  (t < num_teams)%nat → (f < num_flights)%nat →
  occ num_boats' a' t f h
  == if decide (h < num_heats)%nat then occ num_boats a t f h else 0.
Proof.
  intros Ht Hf. unfold occ. case_decide as Hh.
  - apply Qsum_seq_restrict; [done| |].
    + intros b Hb. by rewrite keep_within_x.
    + intros b Hb. rewrite keep_within_x_out; [done|lia].
  - rewrite (Qsum_fmap_ext _ (λ _, 0)), Qsum_fmap_const; [ring|].
    intros b _. rewrite keep_within_x_out; [done|lia].
Qed.

Lemma load_keep_within f h b :
  (f < num_flights)%nat →
  load num_teams a' f h b
  == if decide (h < num_heats ∧ b < num_boats)%nat
     then load num_teams a f h b else 0.
Proof.
  intros Hf. unfold load. case_decide as Hhb.
  - apply Qsum_fmap_ext. intros t Ht%elem_of_seq.
    rewrite keep_within_x; [done|lia..].
  - rewrite (Qsum_fmap_ext _ (λ _, 0)), Qsum_fmap_const; [ring|].
    intros t _. rewrite keep_within_x_out; [done|lia].
Qed.

Lemma sailed_keep_within t f :
  (t < num_teams)%nat → (f < num_flights)%nat →
  sailed num_boats' num_heats' a' t f == sailed num_boats num_heats a t f.
Proof.
  intros Ht Hf. unfold sailed. apply Qsum_seq_restrict; [done| |].
  - intros h Hh. rewrite occ_keep_within by done. by rewrite decide_True.
  - intros h Hh. rewrite occ_keep_within by done. rewrite decide_False; [done|lia].
Qed.

Lemma keep_within_binary v :
  feasible (prob E num_flights num_boats num_teams num_heats) a →
  a' v == 0 ∨ a' v == 1.
Proof.
  intros [Hbin _]. destruct v as [t f h b|[t1 t2] f h]; simpl; case_bool_decide.
  - apply Hbin, variables_x; lia.
  - by left.
  - apply Hbin, variables_w; lia.
  - by left.
Qed.

Lemma keep_within_feasible :
  feasible (prob E num_flights num_boats num_teams num_heats) a →
  feasible (prob E' num_flights num_boats' num_teams num_heats') a'.
Proof.
  intros Hfeas. split; [intros v _; by apply keep_within_binary|].
  pose proof Hfeas as [_ [HB HT H1 H2 H3 HP]%satisfies_prob].
  apply satisfies_prob. split.
  - intros f h b Hf Hh Hb. rewrite load_keep_within by done.
    case_decide; [apply HB; lia|lra].
  - intros t f h Ht Hf Hh. rewrite occ_keep_within by done.
    case_decide; [apply HT; lia|lra].
  - intros t1 t2 f h Ht Hf Hh. rewrite occ_keep_within by lia. simpl.
    case_decide.
    + rewrite bool_decide_eq_true_2 by lia. apply H1; lia.
    + rewrite bool_decide_eq_false_2 by lia. lra.
  - intros t1 t2 f h Ht Hf Hh. rewrite occ_keep_within by lia. simpl.
    case_decide.
    + rewrite bool_decide_eq_true_2 by lia. apply H2; lia.
    + rewrite bool_decide_eq_false_2 by lia. lra.
  - intros t1 t2 f h Ht Hf Hh. rewrite !occ_keep_within by lia. simpl.
    case_decide.
    + rewrite bool_decide_eq_true_2 by lia. apply H3; lia.
    + rewrite bool_decide_eq_false_2 by lia. lra.
  - intros t f Ht Hf. rewrite sailed_keep_within by done. by apply HP.
Qed.
End monotone.

(** C8. Feasibility is monotone in capacity: when the constraints for
    (flights, boats, teams, heats) admit an assignment, so do the
    constraints with more boats, with more heats, or with both, the other
    sizes unchanged (and with whatever random weights the second run
    draws). *)
Theorem feasibility_monotone
    E E' num_flights num_boats num_teams num_heats num_boats' num_heats' :
  (num_boats ≤ num_boats')%nat → (num_heats ≤ num_heats')%nat →
  (∃ a, feasible (prob E num_flights num_boats num_teams num_heats) a) →
  ∃ a', feasible (prob E' num_flights num_boats' num_teams num_heats') a'.
Proof.
  intros HB HH [a Ha].
  exists (keep_within num_flights num_boats num_teams num_heats a).
  by apply (keep_within_feasible E).
Qed.

Lemma feasibility_monotone_witness :
  ∃ a', feasible (prob run_without_solution 1 3 2 2) a'.
Proof.
  apply (feasibility_monotone run_diagonal run_without_solution 1 2 2 1 3 2).
  - lia.
  - lia.
  - exists diagonal. apply diagonal_feasible_1221.
Defined.

(** ** Worked runs *)

Lemma extractor_postcondition_witness :
  length (extract_schedule 1 2 2 1 (λ v, Some (diagonal v))) = 1%nat ∧
  ∀ f, (f < 1)%nat →
    ∃ flight_schedule,
      extract_schedule 1 2 2 1 (λ v, Some (diagonal v)) !! f = Some flight_schedule ∧
      length flight_schedule = 1%nat ∧
      ∀ h, (h < 1)%nat →
        ∃ heat_schedule : gmap nat nat,
          flight_schedule !! h = Some heat_schedule ∧
          (∀ b, is_Some (heat_schedule !! b) ↔
                (b < 2)%nat ∧
                ∃ t, (t < 2)%nat ∧
                     ∃ q, Some (diagonal (x_ t f h b)) = Some q ∧ q == 1) ∧
          (∀ b c, heat_schedule !! b = Some c ↔
                  (b < 2)%nat ∧
                  ∃ t, (t < 2)%nat ∧ c = (t + 1)%nat ∧
                       (∃ q, Some (diagonal (x_ t f h b)) = Some q ∧ q == 1) ∧
                       ∀ t', (t < t' < 2)%nat →
                             ¬ ∃ q, Some (diagonal (x_ t' f h b)) = Some q ∧ q == 1).
Proof.
  apply (extractor_postcondition run_diagonal 1 2 2 1 LpStatusOptimal
           (λ v, Some (diagonal v))).
  - reflexivity.
  - reflexivity.
Defined.

(** Scenario A of the specification: one flight, two boats, two teams, one
    heat; both teams sail in the only heat, one per boat. *)
Example scenario_A :
  generate_schedule run_diagonal 1 2 2 1
  = Some [[ {[ 0%nat := 1%nat; 1%nat := 2%nat ]} ]].
Proof. vm_compute. reflexivity. Qed.

(** Scenario C: two flights, three boats, three teams, one heat. *)
Example scenario_C :
  generate_schedule run_diagonal 2 3 3 1
  = Some [[ {[ 0%nat := 1%nat; 1%nat := 2%nat; 2%nat := 3%nat ]} ];
          [ {[ 0%nat := 1%nat; 1%nat := 2%nat; 2%nat := 3%nat ]} ]].
Proof. vm_compute. reflexivity. Qed.

(** The same sizes when CBC stops without a solution: a schedule of empty
    dictionaries, not [None]. *)
Example scenario_A_without_solution :
  generate_schedule run_without_solution 1 2 2 1 = Some [[ ∅ ]].
Proof. vm_compute. reflexivity. Qed.

(** The constraints of scenario B (one boat for two teams). *)
Example scenario_B_constraints :
  constraints (prob run_diagonal 1 1 2 1)
  = [ ("Boat_0_Flight_0_Heat_0"%string,
       mkExpr [(x_ 0 0 0 0, 1); (x_ 1 0 0 0, 1)] 0 <== mkExpr [] 1);
      ("Team_0_Flight_0_Heat_0"%string,
       mkExpr [(x_ 0 0 0 0, 1)] 0 <== mkExpr [] 1);
      ("Team_1_Flight_0_Heat_0"%string,
       mkExpr [(x_ 1 0 0 0, 1)] 0 <== mkExpr [] 1);
      ("W1_0_1_Flight_0_Heat_0"%string,
       mkExpr [(w_ (0, 1)%nat 0 0, 1)] 0 <== mkExpr [(x_ 0 0 0 0, 1)] 0);
      ("W2_0_1_Flight_0_Heat_0"%string,
       mkExpr [(w_ (0, 1)%nat 0 0, 1)] 0 <== mkExpr [(x_ 1 0 0 0, 1)] 0);
      ("W3_0_1_Flight_0_Heat_0"%string,
       mkExpr [(w_ (0, 1)%nat 0 0, 1)] 0
       >== mkExpr [(x_ 0 0 0 0, 1); (x_ 1 0 0 0, 1)] (-1));
      ("Team_0_Flight_0_Participation"%string,
       mkExpr [(x_ 0 0 0 0, 1)] 0 === mkExpr [] 1);
      ("Team_1_Flight_0_Participation"%string,
       mkExpr [(x_ 1 0 0 0, 1)] 0 === mkExpr [] 1) ].
Proof. reflexivity. Qed.

Example scenario_B_infeasible a : ¬ feasible (prob run_diagonal 1 1 2 1) a.
Proof. apply too_many_teams_infeasible; lia. Qed.

(** The pairs of three teams, in the order of [itertools.combinations]. *)
Example team_pairs_3 : team_pairs 3 = [(0, 1); (0, 2); (1, 2)]%nat.
Proof. reflexivity. Qed.

(** With the weights of [run_diagonal] the diagonal is the optimum of
    scenario A: the other feasible assignment swaps the two boats and costs
    more. *)
Example diagonal_optimal_1221 : optimal (prob run_diagonal 1 2 2 1) diagonal.
Proof.
  split; [apply diagonal_feasible_1221|]. intros a' Hfeas.
  rewrite direction_prob. simpl.
  pose proof (relaxed_of_feasible _ _ Hfeas) as [Hbd _].
  pose proof Hfeas as [_ [HB _ _ _ _ HP]%satisfies_prob].
  pose proof (Hbd (x_ 0 0 0 0) ltac:(apply variables_x; lia)) as B00.
  pose proof (Hbd (x_ 0 0 0 1) ltac:(apply variables_x; lia)) as B01.
  pose proof (Hbd (x_ 1 0 0 0) ltac:(apply variables_x; lia)) as B10.
  pose proof (Hbd (x_ 1 0 0 1) ltac:(apply variables_x; lia)) as B11.
  pose proof (Hbd (w_ (0, 1)%nat 0 0) ltac:(apply variables_w; lia)) as Bw.
  pose proof (HB 0 0 0 ltac:(lia) ltac:(lia) ltac:(lia))%nat as L0.
  pose proof (HB 0 0 1 ltac:(lia) ltac:(lia) ltac:(lia))%nat as L1.
  pose proof (HP 0 0 ltac:(lia) ltac:(lia))%nat as P0.
  pose proof (HP 1 0 ltac:(lia) ltac:(lia))%nat as P1.
  unfold load, sailed, occ in *. simpl in L0, L1, P0, P1.
  unfold value_of. simpl. unfold diagonal. simpl.
  repeat match goal with
         | |- context [lookup_total ?k ?m] =>
             let r := eval vm_compute in (lookup_total k m) in
             change (lookup_total k m) with r
         end.
  lra.
Qed.

Lemma pairing_linkage_witness :
  (0, 1)%nat ∈ team_pairs 2 ∧ 0%nat ∈ flights 1 ∧ 0%nat ∈ heats 1 ∧
  ("W1_0_1_Flight_0_Heat_0"%string, W1 2 0 1 0 0)
    ∈ constraints (prob run_diagonal 1 2 2 1) ∧
  (diagonal (w_ (0, 1)%nat 0 0) == 1 ↔
     (∃ b, (b < 2)%nat ∧ diagonal (x_ 0 0 0 b) == 1) ∧
     (∃ b, (b < 2)%nat ∧ diagonal (x_ 1 0 0 b) == 1)).
Proof.
  assert ((0, 1)%nat ∈ team_pairs 2) as Hp by by_computation.
  assert (0%nat ∈ flights 1) as Hf by by_computation.
  assert (0%nat ∈ heats 1) as Hh by by_computation.
  pose proof (pairing_linkage run_diagonal 1 2 2 1 0 1 0 0 Hp Hf Hh)
    as ((Hin & _) & _ & _ & Hopt).
  split_and!; [done..|exact Hin|].
  exact (proj1 (Hopt diagonal diagonal_optimal_1221)).
Defined.

(** ** The index space and the size of the model, lines 14-22 and 48-72 *)

(** [itertools.combinations(teams, 2)] lists every unordered pair of teams
    exactly once, smaller index first: [num_teams * (num_teams - 1) / 2]
    pairs. *)
Theorem team_pairs_each_pair_once num_teams :
  NoDup (team_pairs num_teams) ∧
  (∀ t1 t2, (t1, t2) ∈ team_pairs num_teams ↔ (t1 < t2 < num_teams)%nat) ∧
  (2 * length (team_pairs num_teams) = num_teams * (num_teams - 1))%nat.
Proof.
  split_and!.
  - apply NoDup_combinations2, NoDup_seq.
  - intros t1 t2. apply elem_of_team_pairs.
  - apply length_combinations2_seq.
Qed.

Lemma length_bind_const {A B} (g : A → list B) (l : list A) (n : nat) :
  (∀ i, i ∈ l → length (g i) = n) → length (l ≫= g) = (length l * n)%nat.
Proof.
  induction l as [|i l IH]; intros Hg; csimpl; [done|].
  rewrite length_app, IH, (Hg i); [lia|left|].
  intros j Hj. apply Hg. by right.
Qed.

(** The number of constraints handed to the solver: one per boat place,
    one per team and heat, three per pair of teams and heat, and one per
    team and flight. *)
Theorem number_of_constraints E num_flights num_boats num_teams num_heats :
  length (constraints (prob E num_flights num_boats num_teams num_heats))
  = (num_flights * num_heats * num_boats
     + num_teams * num_flights * num_heats
     + 3 * (length (team_pairs num_teams) * num_flights * num_heats)
     + num_teams * num_flights)%nat.
Proof.
  rewrite constraints_prob, !length_app.
  unfold Boat_constraints, Team_constraints, W_constraints, Participation_constraints.
  rewrite (length_bind_const _ (flights num_flights) (num_heats * num_boats)).
  2:{ intros f _. rewrite (length_bind_const _ _ num_boats).
      { unfold heats. by rewrite length_seq. }
      intros h _. rewrite (length_bind_const _ _ 1).
      { unfold boats. rewrite length_seq. lia. }
      done. }
  rewrite (length_bind_const _ (teams num_teams) (num_flights * num_heats)).
  2:{ intros t _. rewrite (length_bind_const _ _ num_heats).
      { unfold flights. by rewrite length_seq. }
      intros f _. rewrite (length_bind_const _ _ 1).
      { unfold heats. rewrite length_seq. lia. }
      done. }
  rewrite (length_bind_const _ (team_pairs num_teams) (num_flights * num_heats * 3)).
  2:{ intros [t1 t2] _. rewrite (length_bind_const _ _ (num_heats * 3)).
      { unfold flights. rewrite length_seq. lia. }
      intros f _. rewrite (length_bind_const _ _ 3).
      { unfold heats. by rewrite length_seq. }
      done. }
  rewrite (length_bind_const _ (teams num_teams) num_flights).
  2:{ intros t _. rewrite (length_bind_const _ _ 1).
      { unfold flights. rewrite length_seq. lia. }
      done. }
  unfold flights, teams. rewrite !length_seq. lia.
Qed.

(** ** The random weights, lines 25-35 *)

Section draw.
Context {K : Type} `{Countable K}.
Variable rnd : nat → Q.

Lemma draw_state (keys : list K) (m : gmap K Q) (s : nat) :
  (foldl (λ '(m, s) k, (<[k := rnd s]> m, S s)) (m, s) keys).2
  = (s + length keys)%nat.
Proof.
  revert m s. induction keys as [|k keys IH]; intros m s; simpl; [lia|].
  rewrite IH. lia.
Qed.

Lemma draw_lookup_index (keys : list K) (m : gmap K Q) (s i : nat) k :
  NoDup keys → keys !! i = Some k →
  (foldl (λ '(m, s) k, (<[k := rnd s]> m, S s)) (m, s) keys).1 !! k
  = Some (rnd (s + i)%nat).
Proof.
  intros Hnd. revert m s i. induction Hnd as [|k0 keys Hk0 Hnd IH]; intros m s i Hi;
    [done|].
  destruct i as [|i]; simpl in *.
  - injection Hi as ->. rewrite draw_other by done.
    rewrite lookup_insert_eq. do 2 f_equal. lia.
  - rewrite (IH _ _ i) by done. do 2 f_equal. lia.
Qed.
End draw.

Lemma lookup_bind_seq {A} (g : nat → list A) (n m i j : nat) :
  (∀ i, length (g i) = n) → (i < m)%nat → (j < n)%nat →
  (seq 0 m ≫= g) !! (i * n + j)%nat = g i !! j.
Proof.
  intros Hg. induction m as [|m IH]; intros Hi Hj; [lia|].
  rewrite seq_S, bind_app. csimpl. rewrite app_nil_r.
  assert (length (seq 0 m ≫= g) = (m * n)%nat) as Hlen.
  { rewrite (length_bind_const _ _ n); [by rewrite length_seq|done]. }
  destruct (decide (i = m)) as [->|Hne].
  - rewrite lookup_app_r by lia. f_equal. lia.
  - rewrite lookup_app_l by nia. apply IH; lia.
Qed.

Section weights.
Variable E : Env.
Variables num_flights num_boats num_teams num_heats : nat.

Abbreviation keys :=
  (t ← teams num_teams; f ← flights num_flights; h ← heats num_heats;
   b ← boats num_boats; [(t, f, h, b)]).

Lemma elem_of_keys t f h b :
  (t, f, h, b) ∈ keys
  ↔ (t < num_teams ∧ f < num_flights ∧ h < num_heats ∧ b < num_boats)%nat.
Proof.
  unfold teams, flights, heats, boats. split.
  - intros (t' & (f' & (h' & (b' & [= -> -> -> ->]%list_elem_of_singleton
        & Hb%elem_of_seq)%list_elem_of_bind & Hh%elem_of_seq)%list_elem_of_bind
        & Hf%elem_of_seq)%list_elem_of_bind & Ht%elem_of_seq)%list_elem_of_bind.
    lia.
  - intros (Ht & Hf & Hh & Hb).
    apply list_elem_of_bind. exists t. split; [|apply elem_of_seq; lia].
    apply list_elem_of_bind. exists f. split; [|apply elem_of_seq; lia].
    apply list_elem_of_bind. exists h. split; [|apply elem_of_seq; lia].
    apply list_elem_of_bind. exists b. split; [|apply elem_of_seq; lia].
    by apply list_elem_of_singleton.
Qed.

Lemma NoDup_keys : NoDup keys.
Proof.
  unfold teams, flights, heats, boats.
  apply NoDup_bind; [| |apply NoDup_seq].
  { intros t1 t2 [[[t f] h] b] _ _ Hin1 Hin2.
    apply list_elem_of_bind in Hin1 as (? & (? & (? & [= -> _ _ _]%list_elem_of_singleton
      & _)%list_elem_of_bind & _)%list_elem_of_bind & _).
    apply list_elem_of_bind in Hin2 as (? & (? & (? & [= -> _ _ _]%list_elem_of_singleton
      & _)%list_elem_of_bind & _)%list_elem_of_bind & _).
    done. }
  intros t _. apply NoDup_bind; [| |apply NoDup_seq].
  { intros f1 f2 [[[t' f] h] b] _ _ Hin1 Hin2.
    apply list_elem_of_bind in Hin1 as (? & (? & [= _ -> _ _]%list_elem_of_singleton
      & _)%list_elem_of_bind & _).
    apply list_elem_of_bind in Hin2 as (? & (? & [= _ -> _ _]%list_elem_of_singleton
      & _)%list_elem_of_bind & _).
    done. }
  intros f _. apply NoDup_bind; [| |apply NoDup_seq].
  { intros h1 h2 [[[t' f'] h] b] _ _ Hin1 Hin2.
    apply list_elem_of_bind in Hin1 as (? & [= _ _ -> _]%list_elem_of_singleton & _).
    apply list_elem_of_bind in Hin2 as (? & [= _ _ -> _]%list_elem_of_singleton & _).
    done. }
  intros h _. apply NoDup_bind; [| |apply NoDup_seq].
  { intros b1 b2 [[[t' f'] h'] b] _ _ [= _ _ _ ->]%list_elem_of_singleton
      [= _ _ _ ->]%list_elem_of_singleton. done. }
  intros b _. apply NoDup_singleton.
Qed.

Lemma lookup_keys t f h b :
  (t < num_teams)%nat → (f < num_flights)%nat → (h < num_heats)%nat →
  (b < num_boats)%nat →
  keys !! (((t * num_flights + f) * num_heats + h) * num_boats + b)%nat
  = Some (t, f, h, b).
Proof.
  intros Ht Hf Hh Hb. unfold teams, flights, heats, boats.
  replace (((t * num_flights + f) * num_heats + h) * num_boats + b)%nat
    with (t * (num_flights * (num_heats * num_boats))
          + (f * (num_heats * num_boats) + (h * num_boats + b)))%nat by lia.
  assert (∀ t f h : nat,
            length (seq 0 num_boats ≫= λ b, [(t, f, h, b)]) = num_boats) as L1.
  { intros. rewrite (length_bind_const _ _ 1); [rewrite length_seq; lia|done]. }
  assert (∀ t f : nat,
            length (seq 0 num_heats ≫= λ h, seq 0 num_boats ≫= λ b, [(t, f, h, b)])
                 = (num_heats * num_boats)%nat) as L2.
  { intros. rewrite (length_bind_const _ _ num_boats); [by rewrite length_seq|done]. }
  assert (∀ t : nat,
            length (seq 0 num_flights ≫= λ f, seq 0 num_heats ≫= λ h,
                         seq 0 num_boats ≫= λ b, [(t, f, h, b)])
               = (num_flights * (num_heats * num_boats))%nat) as L3.
  { intros. rewrite (length_bind_const _ _ (num_heats * num_boats));
      [by rewrite length_seq|done]. }
  assert (h * num_boats + b < num_heats * num_boats)%nat as B1 by nia.
  assert (f * (num_heats * num_boats) + (h * num_boats + b)
          < num_flights * (num_heats * num_boats))%nat as B2 by nia.
  rewrite lookup_bind_seq; [|done|done|done].
  rewrite lookup_bind_seq; [|done|done|done].
  rewrite lookup_bind_seq; [|done|done|done].
  replace b with (b * 1 + 0)%nat at 1 by lia.
  rewrite lookup_bind_seq; [done|done|done|lia].
Qed.

(** The dictionary [random_weights] holds, for every (team, flight, heat,
    boat) of the index space, the float of the draw whose number is the
    position of the key in loop order; a key outside the index space is
    missing. *)
Theorem random_weights_lookup t f h b :
  random_weights E num_flights num_boats num_teams num_heats !! (t, f, h, b)
  = if bool_decide (t < num_teams ∧ f < num_flights ∧ h < num_heats ∧ b < num_boats)%nat
    then Some (random_random E
                 (((t * num_flights + f) * num_heats + h) * num_boats + b))
    else None.
Proof.
  unfold random_weights, random_weights_loop, draw. case_bool_decide as Hr.
  - destruct Hr as (Ht & Hf & Hh & Hb).
    by rewrite (draw_lookup_index _ _ _ _ _ _ NoDup_keys (lookup_keys t f h b Ht Hf Hh Hb)).
  - rewrite draw_other; [done|]. by rewrite elem_of_keys.
Qed.

(** The penalties are drawn after all the weights: the [i]-th pair of
    [team_pairs] gets draw number [num_teams * num_flights * num_heats *
    num_boats + i], and only pairs of [team_pairs] have a penalty. *)
Theorem penalty_w_lookup p :
  (∀ i, team_pairs num_teams !! i = Some p →
        penalty_w E num_flights num_boats num_teams num_heats !! p
        = Some (random_random E
                  (num_teams * num_flights * num_heats * num_boats + i))) ∧
  (p ∉ team_pairs num_teams →
   penalty_w E num_flights num_boats num_teams num_heats !! p = None).
Proof.
  unfold penalty_w, random_weights_loop, draw. rewrite draw_state.
  assert (length keys = (num_teams * num_flights * num_heats * num_boats)%nat) as ->.
  { unfold teams, flights, heats, boats.
    rewrite (length_bind_const _ _ (num_flights * (num_heats * num_boats)));
      [rewrite length_seq; lia|].
    intros t _. rewrite (length_bind_const _ _ (num_heats * num_boats));
      [by rewrite length_seq|].
    intros f _. rewrite (length_bind_const _ _ num_boats); [by rewrite length_seq|].
    intros h _. rewrite (length_bind_const _ _ 1); [rewrite length_seq; lia|done]. }
  split.
  - intros i Hi. rewrite (draw_lookup_index _ _ _ _ i p); [done| |done].
    apply NoDup_combinations2, NoDup_seq.
  - intros Hp. by rewrite draw_other.
Qed.
End weights.

(** ** When the model has a solution, lines 45-72 *)

(** A sum of zeros and ones in which at most one entry is one. *)
Lemma Qsum_binary_le_1 {A} (g : A → Q) (l : list A) :
  NoDup l →
  (∀ i, i ∈ l → g i == 0 ∨ g i == 1) →
  (∀ i j, i ∈ l → j ∈ l → g i == 1 → g j == 1 → i = j) →
  Qsum (g <$> l) <= 1.
Proof.
  induction 1 as [|i l Hi Hnd IH]; intros Hbin Huniq; csimpl; [lra|].
  destruct (Hbin i) as [H0|H1]; [left| |].
  - rewrite H0. assert (Qsum (g <$> l) <= 1); [|lra].
    apply IH; [intros; apply Hbin; by right|].
    intros j k Hj Hk. apply Huniq; by right.
  - rewrite H1. assert (Qsum (g <$> l) == 0) as ->; [|lra].
    rewrite (Qsum_fmap_ext g (λ _, 0)), Qsum_fmap_const; [ring|].
    intros j Hj. destruct (Hbin j) as [?|Hj1]; [by right|done|].
    assert (i = j) as -> by (apply Huniq; [left|by right|done..]). done.
Qed.

(** The sum of an indicator of one index. *)
Lemma Qsum_indicator (k : nat) (l : list nat) :
  NoDup l →
  Qsum ((λ i, if bool_decide (i = k) then 1 else 0) <$> l)
  == if bool_decide (k ∈ l) then 1 else 0.
Proof.
  induction 1 as [|i l Hi Hnd IH].
  - rewrite bool_decide_eq_false_2 by apply not_elem_of_nil. reflexivity.
  - csimpl. rewrite IH.
    repeat case_bool_decide; rewrite ?elem_of_cons in *; try lra; exfalso;
      subst; intuition congruence.
Qed.

Section packed.
Variable E : Env.
Variables num_flights num_boats num_teams num_heats : nat.
Hypothesis capacity : (num_teams ≤ num_boats * num_heats)%nat.

Lemma occ_packed t f h :
  (t < num_teams)%nat →
  occ num_boats (packed num_boats) t f h
  == if bool_decide (h = t / num_boats)%nat then 1 else 0.
Proof.
  intros Ht. assert (0 < num_boats)%nat as HB by nia. unfold occ. simpl.
  case_bool_decide as Hh.
  - rewrite (Qsum_fmap_ext _ (λ b, if bool_decide (b = t mod num_boats)%nat then 1 else 0)).
    + rewrite Qsum_indicator by apply NoDup_seq.
      rewrite bool_decide_eq_true_2; [reflexivity|].
      apply elem_of_seq. pose proof (Nat.mod_upper_bound t num_boats). lia.
    + intros b _. repeat case_bool_decide; try reflexivity; tauto.
  - rewrite (Qsum_fmap_ext _ (λ _, 0)), Qsum_fmap_const; [ring|].
    intros b _. rewrite bool_decide_eq_false_2; [reflexivity|tauto].
Qed.

Lemma load_packed f h b :
  (b < num_boats)%nat → load num_teams (packed num_boats) f h b <= 1.
Proof.
  intros Hb. unfold load. simpl.
  rewrite (Qsum_fmap_ext _ (λ t, if bool_decide (t = h * num_boats + b)%nat then 1 else 0)).
  - rewrite Qsum_indicator by apply NoDup_seq. case_bool_decide; lra.
  - intros t _. repeat case_bool_decide; try reflexivity; exfalso.
    + destruct H as [-> ->]. apply H0.
      pose proof (Nat.div_mod_eq t num_boats). lia.
    + apply H. subst t. split.
      * rewrite Nat.div_add_l by lia. rewrite (Nat.div_small b) by done. lia.
      * rewrite Nat.add_comm, Nat.Div0.mod_add. by rewrite Nat.mod_small.
Qed.

Lemma packed_feasible :
  feasible (prob E num_flights num_boats num_teams num_heats) (packed num_boats).
Proof.
  split.
  { intros [t f h b|[t1 t2] f h] _; simpl; case_bool_decide; [right|left|right|left];
      reflexivity. }
  apply satisfies_prob. split.
  - intros f h b _ _ Hb. by apply load_packed.
  - intros t f h Ht _ _. rewrite occ_packed by done. case_bool_decide; lra.
  - intros t1 t2 f h Ht _ _. rewrite occ_packed by lia. simpl.
    repeat case_bool_decide; try lra; tauto.
  - intros t1 t2 f h Ht _ _. rewrite occ_packed by lia. simpl.
    repeat case_bool_decide; try lra; tauto.
  - intros t1 t2 f h Ht _ _. rewrite !occ_packed by lia. simpl.
    repeat case_bool_decide; try lra; tauto.
  - intros t f Ht _. unfold sailed.
    rewrite (Qsum_fmap_ext _ (λ h, if bool_decide (h = t / num_boats)%nat then 1 else 0)).
    + rewrite Qsum_indicator by apply NoDup_seq.
      rewrite bool_decide_eq_true_2; [reflexivity|].
      apply elem_of_seq. split; [lia|]. simpl.
      apply Nat.Div0.div_lt_upper_bound. lia.
    + intros h _. by apply occ_packed.
Qed.
End packed.

(** With at least one flight, the constraints can be satisfied exactly when
    the boats of all heats of a flight have room for all teams:
    [num_teams <= num_boats * num_heats]. The random weights play no part. *)
Theorem feasible_iff_capacity E num_flights num_boats num_teams num_heats :
  (0 < num_flights)%nat →
  (∃ a, feasible (prob E num_flights num_boats num_teams num_heats) a)
  ↔ (num_teams ≤ num_boats * num_heats)%nat.
Proof.
  intros Hf. split.
  - intros [a Ha]. destruct (decide (num_teams ≤ num_boats * num_heats)%nat); [done|].
    exfalso. eapply too_many_teams_infeasible; [done| |done]. lia.
  - intros Hcap. exists (packed num_boats). by apply packed_feasible.
Qed.

Lemma feasible_iff_capacity_witness :
  (∃ a, feasible (prob run_diagonal 5 6 12 2) a) ↔ (12 ≤ 6 * 2)%nat.
Proof. apply (feasible_iff_capacity run_diagonal 5 6 12 2). lia. Defined.

(** ** What the schedule shows of the solver's point, lines 85-95 *)

(** When the variables hold a point of the model (integral or relaxed), the
    returned schedule shows exactly its ones: team number [t + 1] stands
    under boat [b] of heat [h] in flight [f] if and only if the indices lie in
    the index space and [x[t][f][h][b]] is 1. No team is overwritten, and no
    entry lies outside the index space. *)
Theorem schedule_shows_the_ones
    E num_flights num_boats num_teams num_heats result value a schedule :
  PULP_CBC_CMD E (time_limit E) (prob E num_flights num_boats num_teams num_heats)
    = (result, value) →
  relaxed (prob E num_flights num_boats num_teams num_heats) a →
  reads (prob E num_flights num_boats num_teams num_heats) value a →
  generate_schedule E num_flights num_boats num_teams num_heats = Some schedule →
  ∀ f h b c,
    appears schedule f h b c ↔
    (f < num_flights ∧ h < num_heats ∧ b < num_boats)%nat ∧
    ∃ t, (t < num_teams)%nat ∧ c = (t + 1)%nat ∧ a (x_ t f h b) == 1.
Proof.
  intros Hout Hrel Hr [_ ->]%(generate_schedule_Some _ _ _ _ _ _ _ _ Hout) f h b c.
  rewrite appears_extract. split.
  - intros [(Hf & Hh & Hb) (t & (Ht & H1 & _)%last_team_Some & ->)].
    split; [done|]. exists t. split_and!; [done..|].
    by apply (equals_one_reads _ _ _ _ Hr); [apply variables_x|].
  - intros [(Hf & Hh & Hb) (t & Ht & -> & H1)]. split; [done|].
    exists t. split; [|done]. apply last_team_Some. split_and!; [done| |].
    + by apply (equals_one_reads _ _ _ _ Hr); [apply variables_x|].
    + intros t' Ht'. destruct (equals_one (value (x_ t' f h b))) eqn:H1'; [|done].
      apply (equals_one_reads _ _ _ _ Hr) in H1'; [|apply variables_x; lia].
      assert (t' = t); [|lia].
      eapply (relaxed_one_team E num_flights num_boats num_teams num_heats a f h b);
        [done|lia..|done|done].
Qed.

Lemma schedule_shows_the_ones_witness :
  appears (extract_schedule 1 2 2 1 (λ v, Some (diagonal v))) 0 0 1 2 ↔
  (0 < 1 ∧ 0 < 1 ∧ 1 < 2)%nat ∧
  ∃ t, (t < 2)%nat ∧ 2%nat = (t + 1)%nat ∧ diagonal (x_ t 0 0 1) == 1.
Proof.
  apply (schedule_shows_the_ones run_diagonal 1 2 2 1 LpStatusOptimal
           (λ v, Some (diagonal v)) diagonal).
  - reflexivity.
  - apply relaxed_of_feasible, diagonal_feasible_1221.
  - intros v _. by exists (diagonal v).
  - reflexivity.
Defined.

(** ** How often a pair of teams meets, lines 41 and 61-72 *)

(** In an integer-feasible point two teams share at most one heat per
    flight, so the indicators of a pair sum to at most 1 over the heats of a
    flight and to at most [num_flights] over the whole schedule: the factor
    [1 - sum of w] of the pair's penalty lies between [1 - num_flights]
    and 1. *)
Theorem pair_meets_once_per_flight
    E num_flights num_boats num_teams num_heats a t1 t2 :
  feasible (prob E num_flights num_boats num_teams num_heats) a →
  (t1 < t2 < num_teams)%nat →
  (∀ f, (f < num_flights)%nat →
        0 <= Qsum ((λ h, a (w_ (t1, t2) f h)) <$> seq 0 num_heats) <= 1) ∧
  0 <= Qsum ((λ '(f, h), a (w_ (t1, t2) f h))
             <$> (f ← seq 0 num_flights; h ← seq 0 num_heats; [(f, h)]))
    <= inject_Z (Z.of_nat num_flights).
Proof.
  intros Hfeas Ht. pose proof Hfeas as [Hbin _].
  assert (∀ f, (f < num_flights)%nat →
            0 <= Qsum ((λ h, a (w_ (t1, t2) f h)) <$> seq 0 num_heats) <= 1) as Hflight.
  { intros f Hf. split.
    - apply Qsum_nonneg. intros h Hh%elem_of_seq.
      destruct (Hbin (w_ (t1, t2) f h)) as [->| ->]; [apply variables_w; lia|lra..].
    - apply Qsum_binary_le_1; [apply NoDup_seq| |].
      + intros h Hh%elem_of_seq. apply Hbin, variables_w; lia.
      + intros h h' Hh%elem_of_seq Hh'%elem_of_seq Hw Hw'.
        destruct (feasible_sails_once E _ _ _ _ a t1 f Hfeas ltac:(lia) Hf)
          as (h0 & b0 & _ & _ & _ & Huniq).
        apply (feasible_pairing E _ _ _ _ a t1 t2 f h Hfeas Ht Hf ltac:(lia)) in Hw
          as [(b & Hb & Hx) _].
        apply (feasible_pairing E _ _ _ _ a t1 t2 f h' Hfeas Ht Hf ltac:(lia)) in Hw'
          as [(b' & Hb' & Hx') _].
        destruct (Huniq h b ltac:(lia) Hb Hx) as [-> _].
        by destruct (Huniq h' b' ltac:(lia) Hb' Hx') as [-> _]. }
  split; [done|]. rewrite Qsum_fmap_bind.
  rewrite (Qsum_fmap_ext _ (λ f, Qsum ((λ h, a (w_ (t1, t2) f h)) <$> seq 0 num_heats))).
  2:{ intros f _. rewrite Qsum_fmap_bind. apply Qsum_fmap_ext. intros h _.
      csimpl. ring. }
  split.
  - apply Qsum_nonneg. intros f Hf%elem_of_seq. apply Hflight. lia.
  - apply Qle_trans with (Qsum ((λ _ : nat, 1) <$> seq 0 num_flights)).
    + apply Qsum_fmap_le. intros f Hf%elem_of_seq. apply Hflight. lia.
    + rewrite Qsum_fmap_const, length_seq. lra.
Qed.

Lemma pair_meets_once_per_flight_witness :
  (∀ f, (f < 1)%nat →
        0 <= Qsum ((λ h, diagonal (w_ (0, 1)%nat f h)) <$> seq 0 1) <= 1) ∧
  0 <= Qsum ((λ '(f, h), diagonal (w_ (0, 1)%nat f h))
             <$> (f ← seq 0 1; h ← seq 0 1; [(f, h)]))
    <= inject_Z (Z.of_nat 1).
Proof.
  apply (pair_meets_once_per_flight run_diagonal 1 2 2 1 diagonal 0 1).
  - apply diagonal_feasible_1221.
  - lia.
Defined.

(** ** Strings of digits *)

Lemma string_app_assoc (s1 s2 s3 : string) : (s1 +:+ s2) +:+ s3 = s1 +:+ s2 +:+ s3.
Proof. induction s1 as [|c s1 IH]; simpl; [done|]. unfold String.app in *. simpl. by rewrite IH. Qed.

Lemma string_app_nil_r (s : string) : s +:+ "" = s.
Proof. induction s as [|c s IH]; [done|]. unfold String.app in *. simpl. by rewrite IH. Qed.

Lemma digits_app s1 s2 : digits (s1 +:+ s2) = digits s1 && digits s2.
Proof.
  induction s1 as [|c s1 IH]; [done|]. unfold String.app in *. simpl.
  by rewrite IH, andb_assoc.
Qed.

Lemma pretty_N_char_digit x : is_digit (pretty_N_char x) = true.
Proof. unfold pretty_N_char. by repeat case_match. Qed.

Lemma pretty_N_go_digits x s :
  ∃ d, pretty_N_go x s = d +:+ s ∧ digits d = true ∧ ((0 < x)%N → d ≠ "").
Proof.
  revert s. induction (N.lt_wf_0 x) as [x _ IH]; intros s.
  assert (x = 0 ∨ 0 < x)%N as [->|Hx] by lia.
  - exists "". rewrite pretty_N_go_0. split_and!; [done..|lia].
  - rewrite pretty_N_go_step by done.
    destruct (IH (x `div` 10)%N ltac:(by apply N.div_lt)
                (String (pretty_N_char (x `mod` 10)) s)) as (d & -> & Hd & _).
    exists (d +:+ String (pretty_N_char (x `mod` 10)) ""). split_and!.
    + by rewrite string_app_assoc.
    + rewrite digits_app, Hd. simpl. by rewrite pretty_N_char_digit.
    + intros _. by destruct d.
Qed.

Lemma pretty_nat_digits (n : nat) : digits (pretty n) = true ∧ pretty n ≠ "".
Proof.
  unfold pretty, pretty_nat, pretty, pretty_N. case_decide as Hn; [done|].
  destruct (pretty_N_go_digits (N.of_nat n) "") as (d & -> & Hd & Hne).
  rewrite string_app_nil_r. split; [done|]. apply Hne. lia.
Qed.

(** A string of digits followed by something that does not start with a
    digit can be read back in one way only. *)
Lemma digits_app_inj d1 d2 r1 r2 :
  digits d1 = true → digits d2 = true →
  no_digit_ahead r1 = true → no_digit_ahead r2 = true →
  d1 +:+ r1 = d2 +:+ r2 → d1 = d2 ∧ r1 = r2.
Proof.
  revert d2. induction d1 as [|c d1 IH]; intros [|c' d2] Hd1 Hd2 Hr1 Hr2 Heq;
    unfold String.app in *; simpl in *.
  - done.
  - subst r1. simpl in Hr1. apply andb_true_iff in Hd2 as [Hc _].
    by rewrite Hc in Hr1.
  - subst r2. simpl in Hr2. apply andb_true_iff in Hd1 as [Hc _].
    by rewrite Hc in Hr2.
  - injection Heq as -> Heq.
    apply andb_true_iff in Hd1 as [_ Hd1]. apply andb_true_iff in Hd2 as [_ Hd2].
    destruct (IH d2 Hd1 Hd2 Hr1 Hr2 Heq) as [-> ->]. done.
Qed.

(** The same for two numbers printed by an f-string. *)
Lemma pretty_app_inj (n1 n2 : nat) r1 r2 :
  no_digit_ahead r1 = true → no_digit_ahead r2 = true →
  pretty n1 +:+ r1 = pretty n2 +:+ r2 → n1 = n2 ∧ r1 = r2.
Proof.
  intros Hr1 Hr2 Heq.
  destruct (digits_app_inj _ _ _ _ (proj1 (pretty_nat_digits n1))
              (proj1 (pretty_nat_digits n2)) Hr1 Hr2 Heq) as [Hn ->].
  split; [|done]. by apply (inj pretty).
Qed.

(** ** The names of the constraints, lines 51, 57, 64-67 and 72 *)

Lemma fmap_bind {A B C} (f : B → C) (g : A → list B) (l : list A) :
  f <$> (l ≫= g) = l ≫= (λ x, f <$> g x).
Proof. induction l as [|x l IH]; csimpl; [done|]. by rewrite fmap_app, IH. Qed.

Lemma Flight_Heat_inj (f h f' h' : nat) :
  pretty f +:+ "_Heat_" +:+ pretty h = pretty f' +:+ "_Heat_" +:+ pretty h' →
  f = f' ∧ h = h'.
Proof.
  intros [-> Heq]%pretty_app_inj; [|done..].
  apply (inj (String.app _)), (inj pretty) in Heq. done.
Qed.

Lemma Boat_name_inj (b f h b' f' h' : nat) :
  "Boat_" +:+ pretty b +:+ "_Flight_" +:+ pretty f +:+ "_Heat_" +:+ pretty h
  = "Boat_" +:+ pretty b' +:+ "_Flight_" +:+ pretty f' +:+ "_Heat_" +:+ pretty h' →
  b = b' ∧ f = f' ∧ h = h'.
Proof.
  intros Heq%(inj (String.app _)).
  apply pretty_app_inj in Heq as [-> Heq]; [|done..].
  apply (inj (String.app _)), Flight_Heat_inj in Heq. tauto.
Qed.

Lemma Team_name_inj (t f h t' f' h' : nat) :
  "Team_" +:+ pretty t +:+ "_Flight_" +:+ pretty f +:+ "_Heat_" +:+ pretty h
  = "Team_" +:+ pretty t' +:+ "_Flight_" +:+ pretty f' +:+ "_Heat_" +:+ pretty h' →
  t = t' ∧ f = f' ∧ h = h'.
Proof.
  intros Heq%(inj (String.app _)).
  apply pretty_app_inj in Heq as [-> Heq]; [|done..].
  apply (inj (String.app _)), Flight_Heat_inj in Heq. tauto.
Qed.

Lemma W_suffix_inj (t1 t2 f h t1' t2' f' h' : nat) :
  W_suffix t1 t2 f h = W_suffix t1' t2' f' h' →
  t1 = t1' ∧ t2 = t2' ∧ f = f' ∧ h = h'.
Proof.
  unfold W_suffix. intros [-> Heq]%pretty_app_inj; [|done..].
  apply (inj (String.app _)) in Heq.
  apply pretty_app_inj in Heq as [-> Heq]; [|done..].
  apply (inj (String.app _)), Flight_Heat_inj in Heq. tauto.
Qed.

Lemma Participation_name_inj (t f t' f' : nat) :
  "Team_" +:+ pretty t +:+ "_Flight_" +:+ pretty f +:+ "_Participation"
  = "Team_" +:+ pretty t' +:+ "_Flight_" +:+ pretty f' +:+ "_Participation" →
  t = t' ∧ f = f'.
Proof.
  intros Heq%(inj (String.app _)).
  apply pretty_app_inj in Heq as [-> Heq]; [|done..].
  apply (inj (String.app _)) in Heq.
  apply pretty_app_inj in Heq as [-> _]; done.
Qed.

Lemma Team_name_not_Participation (t f h t' f' : nat) :
  "Team_" +:+ pretty t +:+ "_Flight_" +:+ pretty f +:+ "_Heat_" +:+ pretty h
  ≠ "Team_" +:+ pretty t' +:+ "_Flight_" +:+ pretty f' +:+ "_Participation".
Proof.
  intros Heq%(inj (String.app _)).
  apply pretty_app_inj in Heq as [-> Heq]; [|done..].
  apply (inj (String.app _)) in Heq.
  apply pretty_app_inj in Heq as [-> Heq]; [|done..].
  differ Heq.
Qed.

Section names.
Variable E : Env.
Variables num_flights num_boats num_teams num_heats : nat.

Lemma elem_of_Boat_names n :
  n ∈ (Boat_constraints num_flights num_boats num_teams num_heats).*1 →
  ∃ f h b : nat,
    n = "Boat_" +:+ pretty b +:+ "_Flight_" +:+ pretty f +:+ "_Heat_" +:+ pretty h.
Proof.
  intros (nc & -> & (f & (h & (b & ->%list_elem_of_singleton & _)%list_elem_of_bind
    & _)%list_elem_of_bind & _)%list_elem_of_bind)%list_elem_of_fmap. eauto.
Qed.

Lemma elem_of_Team_names n :
  n ∈ (Team_constraints num_flights num_boats num_teams num_heats).*1 →
  ∃ t f h : nat,
    n = "Team_" +:+ pretty t +:+ "_Flight_" +:+ pretty f +:+ "_Heat_" +:+ pretty h.
Proof.
  intros (nc & -> & (t & (f & (h & ->%list_elem_of_singleton & _)%list_elem_of_bind
    & _)%list_elem_of_bind & _)%list_elem_of_bind)%list_elem_of_fmap. eauto.
Qed.

Lemma elem_of_W_names n :
  n ∈ (W_constraints num_flights num_boats num_teams num_heats).*1 →
  ∃ t1 t2 f h : nat,
    n = "W1_" +:+ W_suffix t1 t2 f h ∨ n = "W2_" +:+ W_suffix t1 t2 f h
    ∨ n = "W3_" +:+ W_suffix t1 t2 f h.
Proof.
  intros (nc & -> & ([t1 t2] & (f & (h & Hnc & _)%list_elem_of_bind
    & _)%list_elem_of_bind & _)%list_elem_of_bind)%list_elem_of_fmap.
  exists t1, t2, f, h. rewrite !elem_of_cons, elem_of_nil in Hnc.
  destruct Hnc as [->|[->|[->|[]]]]; auto.
Qed.

Lemma elem_of_Participation_names n :
  n ∈ (Participation_constraints num_flights num_boats num_teams num_heats).*1 →
  ∃ t f : nat,
    n = "Team_" +:+ pretty t +:+ "_Flight_" +:+ pretty f +:+ "_Participation".
Proof.
  intros (nc & -> & (t & (f & ->%list_elem_of_singleton & _)%list_elem_of_bind
    & _)%list_elem_of_bind)%list_elem_of_fmap. eauto.
Qed.

Lemma NoDup_Boat_names :
  NoDup (Boat_constraints num_flights num_boats num_teams num_heats).*1.
Proof.
  unfold Boat_constraints. rewrite fmap_bind.
  apply NoDup_bind; [| |apply NoDup_seq].
  { intros f1 f2 n _ _
      (? & -> & (h1 & (b1 & ->%list_elem_of_singleton & _)%list_elem_of_bind
         & _)%list_elem_of_bind)%list_elem_of_fmap
      (? & Heq & (h2 & (b2 & ->%list_elem_of_singleton & _)%list_elem_of_bind
         & _)%list_elem_of_bind)%list_elem_of_fmap.
    simpl in Heq. apply Boat_name_inj in Heq. tauto. }
  intros f _. rewrite fmap_bind. apply NoDup_bind; [| |apply NoDup_seq].
  { intros h1 h2 n _ _
      (? & -> & (b1 & ->%list_elem_of_singleton & _)%list_elem_of_bind)%list_elem_of_fmap
      (? & Heq & (b2 & ->%list_elem_of_singleton & _)%list_elem_of_bind)%list_elem_of_fmap.
    simpl in Heq. apply Boat_name_inj in Heq. tauto. }
  intros h _. rewrite fmap_bind. apply NoDup_bind; [| |apply NoDup_seq].
  { intros b1 b2 n _ _ [= ->]%list_elem_of_singleton Heq%list_elem_of_singleton.
    simpl in Heq. apply Boat_name_inj in Heq. tauto. }
  intros b _. apply NoDup_singleton.
Qed.

Lemma NoDup_Team_names :
  NoDup (Team_constraints num_flights num_boats num_teams num_heats).*1.
Proof.
  unfold Team_constraints. rewrite fmap_bind.
  apply NoDup_bind; [| |apply NoDup_seq].
  { intros t1 t2 n _ _
      (? & -> & (f1 & (h1 & ->%list_elem_of_singleton & _)%list_elem_of_bind
         & _)%list_elem_of_bind)%list_elem_of_fmap
      (? & Heq & (f2 & (h2 & ->%list_elem_of_singleton & _)%list_elem_of_bind
         & _)%list_elem_of_bind)%list_elem_of_fmap.
    simpl in Heq. apply Team_name_inj in Heq. tauto. }
  intros t _. rewrite fmap_bind. apply NoDup_bind; [| |apply NoDup_seq].
  { intros f1 f2 n _ _
      (? & -> & (h1 & ->%list_elem_of_singleton & _)%list_elem_of_bind)%list_elem_of_fmap
      (? & Heq & (h2 & ->%list_elem_of_singleton & _)%list_elem_of_bind)%list_elem_of_fmap.
    simpl in Heq. apply Team_name_inj in Heq. tauto. }
  intros f _. rewrite fmap_bind. apply NoDup_bind; [| |apply NoDup_seq].
  { intros h1 h2 n _ _ [= ->]%list_elem_of_singleton Heq%list_elem_of_singleton.
    simpl in Heq. apply Team_name_inj in Heq. tauto. }
  intros h _. apply NoDup_singleton.
Qed.

Lemma NoDup_Participation_names :
  NoDup (Participation_constraints num_flights num_boats num_teams num_heats).*1.
Proof.
  unfold Participation_constraints. rewrite fmap_bind.
  apply NoDup_bind; [| |apply NoDup_seq].
  { intros t1 t2 n _ _
      (? & -> & (f1 & ->%list_elem_of_singleton & _)%list_elem_of_bind)%list_elem_of_fmap
      (? & Heq & (f2 & ->%list_elem_of_singleton & _)%list_elem_of_bind)%list_elem_of_fmap.
    simpl in Heq. apply Participation_name_inj in Heq. tauto. }
  intros t _. rewrite fmap_bind. apply NoDup_bind; [| |apply NoDup_seq].
  { intros f1 f2 n _ _ [= ->]%list_elem_of_singleton Heq%list_elem_of_singleton.
    simpl in Heq. apply Participation_name_inj in Heq. tauto. }
  intros f _. apply NoDup_singleton.
Qed.

(** Two names of the third family are equal only for the same inequality
    of the same pair, flight and heat. *)
Lemma W_names_inj n (t1 t2 f h t1' t2' f' h' : nat) :
  n ∈ ["W1_" +:+ W_suffix t1 t2 f h; "W2_" +:+ W_suffix t1 t2 f h;
       "W3_" +:+ W_suffix t1 t2 f h] →
  n ∈ ["W1_" +:+ W_suffix t1' t2' f' h'; "W2_" +:+ W_suffix t1' t2' f' h';
       "W3_" +:+ W_suffix t1' t2' f' h'] →
  t1 = t1' ∧ t2 = t2' ∧ f = f' ∧ h = h'.
Proof.
  rewrite !elem_of_cons, !elem_of_nil.
  intros [->|[->|[->|[]]]] [Heq|[Heq|[Heq|[]]]]; try (by differ Heq);
    by apply (inj (String.app _)), W_suffix_inj in Heq.
Qed.

Lemma NoDup_W_names :
  NoDup (W_constraints num_flights num_boats num_teams num_heats).*1.
Proof.
  unfold W_constraints. rewrite fmap_bind.
  apply NoDup_bind; [| |apply NoDup_combinations2, NoDup_seq].
  { intros [t1 t2] [t1' t2'] n _ _
      (? & -> & (f1 & (h1 & Hn1 & _)%list_elem_of_bind
         & _)%list_elem_of_bind)%list_elem_of_fmap
      (? & Heq & (f2 & (h2 & Hn2 & _)%list_elem_of_bind
         & _)%list_elem_of_bind)%list_elem_of_fmap.
    apply (list_elem_of_fmap_2 fst) in Hn1, Hn2. rewrite <- Heq in Hn2.
    destruct (W_names_inj _ _ _ _ _ _ _ _ _ Hn1 Hn2) as (-> & -> & _). done. }
  intros [t1 t2] _. rewrite fmap_bind. apply NoDup_bind; [| |apply NoDup_seq].
  { intros f1 f2 n _ _
      (? & -> & (h1 & Hn1 & _)%list_elem_of_bind)%list_elem_of_fmap
      (? & Heq & (h2 & Hn2 & _)%list_elem_of_bind)%list_elem_of_fmap.
    apply (list_elem_of_fmap_2 fst) in Hn1, Hn2. rewrite <- Heq in Hn2.
    by destruct (W_names_inj _ _ _ _ _ _ _ _ _ Hn1 Hn2) as (_ & _ & -> & _). }
  intros f _. rewrite fmap_bind. apply NoDup_bind; [| |apply NoDup_seq].
  { intros h1 h2 n _ _ Hn1 Hn2.
    by destruct (W_names_inj _ _ _ _ _ _ _ _ _ Hn1 Hn2) as (_ & _ & _ & ->). }
  intros h _. simpl. rewrite !NoDup_cons, !elem_of_cons, !elem_of_nil.
  split_and!; [| |tauto|constructor].
  - intros [Heq|[Heq|[]]]; differ Heq.
  - intros [Heq|[]]; differ Heq.
Qed.

(** No two constraints of the problem carry the same name, whatever the
    sizes; PuLP refuses a problem with overlapping constraint names. *)
Theorem constraint_names_distinct :
  NoDup (constraints (prob E num_flights num_boats num_teams num_heats)).*1.
Proof.
  rewrite constraints_prob, !fmap_app. rewrite !NoDup_app. split_and!.
  - apply NoDup_Boat_names.
  - intros n (f & h & b & ->)%elem_of_Boat_names. rewrite !elem_of_app.
    intros [(t' & f' & h' & Heq)%elem_of_Team_names
           |[(t1 & t2 & f' & h' & [Heq|[Heq|Heq]])%elem_of_W_names
            |(t' & f' & Heq)%elem_of_Participation_names]]; differ Heq.
  - apply NoDup_Team_names.
  - intros n (t & f & h & ->)%elem_of_Team_names. rewrite !elem_of_app.
    intros [(t1 & t2 & f' & h' & [Heq|[Heq|Heq]])%elem_of_W_names
           |(t' & f' & Heq)%elem_of_Participation_names]; try differ Heq.
    by apply Team_name_not_Participation in Heq.
  - apply NoDup_W_names.
  - intros n (t1 & t2 & f & h & [->|[->| ->]])%elem_of_W_names
      (t' & f' & Heq)%elem_of_Participation_names; differ Heq.
  - apply NoDup_Participation_names.
Qed.
End names.

(** ** The table, lines 99-116 *)

Lemma foldl_append {A} (F : string → A → string) (g : A → string) (l : list A) acc :
  (∀ acc x, F acc x = acc +:+ g x) → foldl F acc l = acc +:+ join_map g l.
Proof.
  intros HF. revert acc. induction l as [|x l IH]; intros acc; simpl.
  - by rewrite string_app_nil_r.
  - by rewrite IH, HF, string_app_assoc.
Qed.

(** The string built by the loops is the opening tag, the rows of the
    flights in order, and the closing tag. *)
Lemma create_html_table_rows schedule num_boats num_heats :
  create_html_table schedule num_boats num_heats
  = "<table border='1' cellpadding='10'>"
    +:+ join_map (flight_rows num_boats) (enumerate schedule) +:+ "</table>".
Proof.
  unfold create_html_table.
  rewrite (foldl_append _ (flight_rows num_boats)); [by rewrite string_app_assoc|].
  intros acc [flight_index flight].
  rewrite (foldl_append _ (heat_rows num_boats)).
  { unfold flight_rows, flight_head. simpl. by rewrite !string_app_assoc. }
  intros acc' [heat_index heat].
  rewrite (foldl_append _ (team_cell heat)); [|done].
  rewrite (foldl_append _ (λ boat, "<td>Boat " +:+ pretty (boat + 1)%nat +:+ "</td>"));
    [|done].
  unfold heat_rows, heat_head. simpl. by rewrite !string_app_assoc.
Qed.

Lemma team_cell_digits (heat : gmap nat nat) boat :
  digits match heat !! boat with
         | Some team => pretty team
         | None => ""
         end = true.
Proof. destruct (heat !! boat); [apply pretty_nat_digits|done]. Qed.

(** Reading the team cells of a heat back. *)
Lemma team_cells_inj (heat heat' : gmap nat nat) (bs : list nat) r r' :
  join_map (team_cell heat) bs +:+ r = join_map (team_cell heat') bs +:+ r' →
  (∀ b, b ∈ bs → heat !! b = heat' !! b) ∧ r = r'.
Proof.
  induction bs as [|b bs IH]; simpl; intros Heq.
  - split; [by intros b ?%elem_of_nil|done].
  - unfold team_cell at 1 3 in Heq. rewrite !string_app_assoc in Heq.
    apply (inj (String.app _)) in Heq.
    apply digits_app_inj in Heq as [Hteam Heq];
      [|apply team_cell_digits|apply team_cell_digits|done|done].
    apply (inj (String.app _)), IH in Heq as [Hbs ->]. split; [|done].
    intros b0 [->|?]%elem_of_cons; [|by apply Hbs].
    destruct (heat !! b) as [t|], (heat' !! b) as [t'|]; try done.
    + by apply (inj pretty) in Hteam as ->.
    + by destruct (proj2 (pretty_nat_digits t)).
    + by destruct (proj2 (pretty_nat_digits t')).
Qed.

Lemma imap_pair_cons {A} (n : nat) (x : A) (l : list A) :
  imap (λ i, pair (n + i)%nat) (x :: l) = (n, x) :: imap (λ i, pair (S n + i)%nat) l.
Proof.
  rewrite imap_cons. f_equal; [f_equal; lia|].
  apply imap_ext. intros i y _. simpl. f_equal. lia.
Qed.

(** Reading the heats of a flight back, up to what follows them. *)
Lemma heat_rows_inj num_boats (n : nat) (flight flight' : list (gmap nat nat)) r r' :
  no_heat_ahead r = true → no_heat_ahead r' = true →
  join_map (heat_rows num_boats) (imap (λ i, pair (n + i)%nat) flight) +:+ r
  = join_map (heat_rows num_boats) (imap (λ i, pair (n + i)%nat) flight') +:+ r' →
  Forall2 (same_boats num_boats) flight flight' ∧ r = r'.
Proof.
  intros Hr Hr'. revert n flight'.
  induction flight as [|heat flight IH]; intros n [|heat' flight'] Heq.
  - done.
  - exfalso. rewrite imap_pair_cons in Heq. simpl in Heq.
    change ("" +:+ r) with r in Heq. subst r.
    unfold heat_rows, heat_head, no_heat_ahead, String.app in Hr. simpl in Hr.
    discriminate Hr.
  - exfalso. rewrite imap_pair_cons in Heq. simpl in Heq.
    change ("" +:+ r') with r' in Heq. subst r'.
    unfold heat_rows, heat_head, no_heat_ahead, String.app in Hr'. simpl in Hr'.
    discriminate Hr'.
  - rewrite !imap_pair_cons in Heq. simpl in Heq.
    unfold heat_rows at 1 3 in Heq. simpl in Heq. rewrite !string_app_assoc in Heq.
    apply (inj (String.app _)), team_cells_inj in Heq as [Hheat Heq].
    apply (inj (String.app _)), (IH (S n)) in Heq as [Hflight ->]. split; [|done].
    constructor; [|done]. intros b Hb. apply Hheat, elem_of_seq. lia.
Qed.

Lemma no_heat_ahead_flights num_boats (l : list (nat * list (gmap nat nat))) :
  no_heat_ahead (join_map (flight_rows num_boats) l +:+ "</table>") = true.
Proof. by destruct l. Qed.

(** Reading the flights back. *)
Lemma flight_rows_inj num_boats (n : nat) (schedule schedule' : list (list (gmap nat nat))) :
  join_map (flight_rows num_boats) (imap (λ i, pair (n + i)%nat) schedule) +:+ "</table>"
  = join_map (flight_rows num_boats) (imap (λ i, pair (n + i)%nat) schedule')
    +:+ "</table>" →
  Forall2 (Forall2 (same_boats num_boats)) schedule schedule'.
Proof.
  revert n schedule'.
  induction schedule as [|flight schedule IH]; intros n [|flight' schedule'] Heq.
  - done.
  - rewrite imap_pair_cons in Heq. simpl in Heq.
    unfold flight_rows, flight_head in Heq. differ Heq.
  - rewrite imap_pair_cons in Heq. simpl in Heq.
    unfold flight_rows, flight_head in Heq. differ Heq.
  - rewrite !imap_pair_cons in Heq. simpl in Heq.
    unfold flight_rows at 1 3 in Heq. simpl in Heq. rewrite !string_app_assoc in Heq.
    apply (inj (String.app _)) in Heq.
    apply (heat_rows_inj num_boats 0) in Heq as [Hflight Heq];
      [|apply no_heat_ahead_flights..].
    constructor; [done|]. by apply (IH (S n)).
Qed.

Lemma join_map_ext {A} (g g' : A → string) (l : list A) :
  (∀ x, x ∈ l → g x = g' x) → join_map g l = join_map g' l.
Proof.
  induction l as [|x l IH]; intros Hg; simpl; [done|].
  rewrite (Hg x), IH; [done| |left]. intros y Hy. apply Hg. by right.
Qed.

Lemma heat_rows_same num_boats (n : nat) (flight flight' : list (gmap nat nat)) :
  Forall2 (same_boats num_boats) flight flight' →
  join_map (heat_rows num_boats) (imap (λ i, pair (n + i)%nat) flight)
  = join_map (heat_rows num_boats) (imap (λ i, pair (n + i)%nat) flight').
Proof.
  intros Hsame. revert n. induction Hsame as [|heat heat' flight flight' Hheat _ IH];
    intros n; [done|].
  rewrite !imap_pair_cons. cbn [join_map]. rewrite IH. f_equal.
  unfold heat_rows. simpl. do 2 f_equal. apply join_map_ext.
  intros b Hb%elem_of_seq. unfold team_cell. rewrite Hheat; [done|lia].
Qed.

Lemma flight_rows_same num_boats (n : nat) (schedule schedule' : list (list (gmap nat nat))) :
  Forall2 (Forall2 (same_boats num_boats)) schedule schedule' →
  join_map (flight_rows num_boats) (imap (λ i, pair (n + i)%nat) schedule)
  = join_map (flight_rows num_boats) (imap (λ i, pair (n + i)%nat) schedule').
Proof.
  intros Hsame. revert n.
  induction Hsame as [|flight flight' schedule schedule' Hflight _ IH]; intros n; [done|].
  rewrite !imap_pair_cons. cbn [join_map]. rewrite IH. f_equal.
  unfold flight_rows. simpl. f_equal. by apply (heat_rows_same num_boats 0).
Qed.

(** Two schedules give the same table exactly when they have the same
    numbers of flights and heats and show the same team, or none, in every
    boat [0 .. num_boats - 1] of every heat. The table can be read back;
    entries under other boats are not shown, and [num_heats] plays no
    part. *)
Theorem create_html_table_same_iff schedule schedule' num_boats num_heats num_heats' :
  create_html_table schedule num_boats num_heats
  = create_html_table schedule' num_boats num_heats'
  ↔ Forall2 (Forall2 (same_boats num_boats)) schedule schedule'.
Proof.
  rewrite !create_html_table_rows. split.
  - intros Heq%(inj (String.app _)). by apply (flight_rows_inj num_boats 0).
  - intros Hsame. f_equal. f_equal. by apply (flight_rows_same num_boats 0).
Qed.

(** ** From the solver to the page *)

Lemma Forall2_same_eq {A} (R : A → A → Prop) (P : A → Prop) (l l' : list A) :
  (∀ x y, P x → P y → R x y → x = y) →
  Forall P l → Forall P l' → Forall2 R l l' → l = l'.
Proof.
  intros HR Hl Hl' H2. induction H2 as [|x y l l' Hxy _ IH]; [done|].
  apply Forall_cons in Hl as [Hx Hl]. apply Forall_cons in Hl' as [Hy Hl'].
  f_equal; auto.
Qed.

(** The dictionaries of a returned schedule have no key outside the
    boats. *)
Lemma extract_schedule_keys num_flights num_boats num_teams num_heats value :
  Forall (Forall (λ heat : gmap nat nat, ∀ b, (num_boats ≤ b)%nat → heat !! b = None))
    (extract_schedule num_flights num_boats num_teams num_heats value).
Proof.
  apply Forall_forall. intros fs (f & -> & _)%list_elem_of_fmap.
  apply Forall_forall. intros m (h & -> & _)%list_elem_of_fmap.
  intros b Hb. rewrite heat_schedule_lookup. by rewrite decide_False by lia.
Qed.

(** The table shows everything a returned schedule holds: two runs with the
    same number of boats whose tables are equal returned the same
    schedule. *)
Theorem returned_schedule_read_from_table
    E E' num_flights num_flights' num_boats num_teams num_teams' num_heats num_heats'
    schedule schedule' :
  generate_schedule E num_flights num_boats num_teams num_heats = Some schedule →
  generate_schedule E' num_flights' num_boats num_teams' num_heats' = Some schedule' →
  create_html_table schedule num_boats num_heats
  = create_html_table schedule' num_boats num_heats' →
  schedule = schedule'.
Proof.
  destruct (PULP_CBC_CMD E (time_limit E)
              (prob E num_flights num_boats num_teams num_heats))
    as [result value] eqn:Hout.
  destruct (PULP_CBC_CMD E' (time_limit E')
              (prob E' num_flights' num_boats num_teams' num_heats'))
    as [result' value'] eqn:Hout'.
  intros [_ ->]%(generate_schedule_Some _ _ _ _ _ _ _ _ Hout).
  intros [_ ->]%(generate_schedule_Some _ _ _ _ _ _ _ _ Hout').
  rewrite !create_html_table_rows. intros Hsame%(inj (String.app _)).
  apply (flight_rows_inj num_boats 0) in Hsame.
  eapply Forall2_same_eq; [|apply extract_schedule_keys..|exact Hsame].
  intros fs fs' Hfs Hfs' Hsame'.
  eapply Forall2_same_eq; [|exact Hfs|exact Hfs'|exact Hsame'].
  intros m m' Hm Hm' Hmm. apply map_eq. intros b.
  destruct (decide (b < num_boats)%nat); [by apply Hmm|].
  rewrite Hm, Hm' by lia. done.
Qed.

Lemma returned_schedule_read_from_table_witness :
  extract_schedule 1 2 2 1 (λ v, Some (diagonal v))
  = extract_schedule 1 2 2 1 (λ v, Some (diagonal v)).
Proof.
  apply (returned_schedule_read_from_table run_diagonal run_diagonal 1 1 2 2 2 1 1);
    reflexivity.
Defined.

(** Without values in the variables the schedule is [num_flights] lists of
    [num_heats] empty dictionaries. *)
Lemma extract_schedule_unset E num_flights num_boats num_teams num_heats value :
  unset (prob E num_flights num_boats num_teams num_heats) value →
  extract_schedule num_flights num_boats num_teams num_heats value
  = replicate num_flights (replicate num_heats ∅).
Proof.
  intros Hunset. unfold extract_schedule, flights, heats.
  apply list_eq. intros f. rewrite list_lookup_fmap.
  destruct (decide (f < num_flights)%nat) as [Hf|Hf].
  2:{ rewrite lookup_seq_ge by lia. symmetry. apply lookup_replicate_None. lia. }
  rewrite lookup_seq_lt, (lookup_replicate_2 _ _ f) by lia. simpl. f_equal.
  apply list_eq. intros h. rewrite list_lookup_fmap.
  destruct (decide (h < num_heats)%nat) as [Hh|Hh].
  2:{ rewrite lookup_seq_ge by lia. symmetry. apply lookup_replicate_None. lia. }
  rewrite lookup_seq_lt, (lookup_replicate_2 _ _ h) by lia. simpl. f_equal.
  apply map_eq. intros b. rewrite heat_schedule_lookup, lookup_empty.
  case_decide as Hb; [|done].
  assert (last_team value f h b num_teams = None) as ->; [|done].
  apply last_team_None. intros t Ht.
  apply (equals_one_unset _ _ _ Hunset), variables_x; lia.
Qed.

(** With at least one flight and more teams than boat places in a flight,
    the page never shows a team, as long as the solver keeps its contract:
    it shows the warning and the message that no schedule could be
    generated, or, when CBC stopped on the time limit, the heading and a
    table whose team cells are all empty. *)
Theorem page_without_room E num_flights num_boats num_teams num_heats :
  (0 < num_flights)%nat → (num_boats * num_heats < num_teams)%nat →
  solver_contract (prob E num_flights num_boats num_teams num_heats)
    (PULP_CBC_CMD E (time_limit E) (prob E num_flights num_boats num_teams num_heats)) →
  Generate_Schedule E num_flights num_boats num_teams num_heats
  = [st_warning "No feasible solution found.";
     st_write "No feasible schedule could be generated with the given parameters."]
  ∨ Generate_Schedule E num_flights num_boats num_teams num_heats
    = [st_write "### Generated Schedule";
       st_markdown
         (create_html_table (replicate num_flights (replicate num_heats ∅))
            num_boats num_heats)].
Proof.
  intros Hf Hlt. unfold Generate_Schedule.
  destruct (PULP_CBC_CMD E (time_limit E) _) as [result value] eqn:Hout. intros Hc.
  destruct (too_many_teams_outcome _ _ _ _ _ _ _ Hf Hlt Hout Hc) as [_ Hnone].
  assert (result = LpStatusNotSolved ∨ result ≠ LpStatusNotSolved) as [->|Hne]
    by (destruct result; auto).
  - right. rewrite (generate_schedule_unfold _ _ _ _ _ _ _ Hout). simpl.
    destruct Hc as [(a & Hrel & _)|Hunset].
    + exfalso. by eapply too_many_teams_relaxed.
    + by rewrite (extract_schedule_unset E).
  - left. by rewrite Hnone.
Qed.

Lemma page_without_room_witness :
  Generate_Schedule run_without_solution 1 1 2 1
  = [st_warning "No feasible solution found.";
     st_write "No feasible schedule could be generated with the given parameters."]
  ∨ Generate_Schedule run_without_solution 1 1 2 1
    = [st_write "### Generated Schedule";
       st_markdown (create_html_table (replicate 1 (replicate 1 ∅)) 1 1)].
Proof.
  apply (page_without_room run_without_solution 1 1 2 1).
  - lia.
  - lia.
  - apply run_without_solution_contract.
Defined.

(** The page of scenario A. *)
Example scenario_A_page :
  Generate_Schedule run_diagonal 1 2 2 1
  = [st_write "### Generated Schedule";
     st_markdown
       ("<table border='1' cellpadding='10'>"
        +:+ "<tr><th colspan='3'>Flight 1</th></tr>"
        +:+ "<tr><td>Heat 1</td><td>Boat 1</td><td>Boat 2</td></tr>"
        +:+ "<tr><td></td><td>1</td><td>2</td></tr>"
        +:+ "</table>")].
Proof. vm_compute. reflexivity. Qed.

(** ** Every team, once per flight, lines 70-72 and 85-95 *)

(** Whenever the variables hold an integer-feasible point of the model
    (whatever status let the schedule through), every team stands in the
    returned schedule exactly once per flight: under one boat of one
    heat. *)
Theorem every_team_once_per_flight
    E num_flights num_boats num_teams num_heats result value a schedule t f :
  PULP_CBC_CMD E (time_limit E) (prob E num_flights num_boats num_teams num_heats)
    = (result, value) →
  feasible (prob E num_flights num_boats num_teams num_heats) a →
  reads (prob E num_flights num_boats num_teams num_heats) value a →
  generate_schedule E num_flights num_boats num_teams num_heats = Some schedule →
  (t < num_teams)%nat → (f < num_flights)%nat →
  ∃ h b, appears schedule f h b (t + 1) ∧
         ∀ h' b', appears schedule f h' b' (t + 1) → h' = h ∧ b' = b.
Proof.
  intros Hout Hfeas Hr [_ ->]%(generate_schedule_Some _ _ _ _ _ _ _ _ Hout) Ht Hf.
  destruct (feasible_sails_once E _ _ _ _ a t f Hfeas Ht Hf)
    as (h & b & Hh & Hb & H1 & Huniq).
  pose proof (relaxed_of_feasible _ _ Hfeas) as Hrel.
  exists h, b. split.
  - apply appears_extract. split; [done|]. exists t. split; [|done].
    apply last_team_Some. split_and!; [done| |].
    + apply (equals_one_reads _ _ _ _ Hr); [by apply variables_x|done].
    + intros t' Ht'. destruct (equals_one (value (x_ t' f h b))) eqn:H1'; [|done].
      apply (equals_one_reads _ _ _ _ Hr) in H1'; [|apply variables_x; lia].
      assert (t' = t); [|lia].
      eapply (relaxed_one_team E num_flights num_boats num_teams num_heats a f h b);
        [done|lia..|done|done].
  - intros h' b' [(_ & Hh' & Hb') (t' & Hl & Heq)]%appears_extract.
    assert (t' = t) as -> by lia.
    apply last_team_Some in Hl as (_ & H1' & _).
    apply (equals_one_reads _ _ _ _ Hr) in H1'; [|by apply variables_x].
    by apply Huniq.
Qed.

Lemma every_team_once_per_flight_witness :
  ∃ h b, appears (extract_schedule 1 2 2 1 (λ v, Some (diagonal v))) 0 h b (0 + 1) ∧
         ∀ h' b',
           appears (extract_schedule 1 2 2 1 (λ v, Some (diagonal v))) 0 h' b' (0 + 1) →
           h' = h ∧ b' = b.
Proof.
  apply (every_team_once_per_flight run_diagonal 1 2 2 1 LpStatusOptimal
           (λ v, Some (diagonal v)) diagonal).
  - reflexivity.
  - apply diagonal_feasible_1221.
  - intros v _. by exists (diagonal v).
  - reflexivity.
  - lia.
  - lia.
Defined.
